(** * memwatchdog: the native watchdog addon, embedded and verified

    Shallow embedding of [packages/core/native/addon.cc] and
    [packages/core/native/include/snapshot.hpp].

    Conventions.
    - [double] is IEEE-754 binary64, round-to-nearest-even, one rounding per
      operation (no fused multiply-add, no extended precision): Rocq's
      primitive [float].
    - [uint32_t] is [N]; [size_t], [time_t] and clock ticks are [Z]. The
      only place the source wraps an integer is [Uint32Value], written out
      below.
    - [std::deque<Pt>] is a [list Pt], front of the deque = head of the list.
    - [std::chrono::steady_clock] counts nanoseconds (libstdc++, libc++ and
      the MSVC library all use [std::nano] for its period). *)

From Stdlib Require Import ZArith QArith List Bool Lia DecimalString Sorted.
From Stdlib Require DecimalPos DecimalZ.
From Stdlib Require Import Floats.PrimFloat Floats.FloatOps Floats.SpecFloat.
From Stdlib Require Import Floats.FloatAxioms.
From stdpp Require Import gmap strings.

Local Open Scope Z_scope.

(** ** Doubles *)

Module Double.

(** [static_cast<double>(z)] for an integer [z] of any width: the nearest
    binary64, ties to even. *)
Definition of_Z (z : Z) : float :=
  SF2Prim (binary_normalize prec emax z 0 false).

(** [d == 0] on doubles: true for [+0] and [-0], false for NaN. *)
Definition is_zero (d : float) : bool := PrimFloat.eqb d 0%float.

(** Contextual conversion of a double to [bool], as in [d ? a : b]:
    a zero is false, every other value (NaN included) is true. *)
Definition truthy (d : float) : bool := negb (is_zero d).

(** [a >= b] on doubles (false as soon as one side is NaN). *)
Definition geb (a b : float) : bool := PrimFloat.leb b a.

(** The rational a finite double stands for; [None] for NaN and the
    infinities. *)
Definition to_Q (d : float) : option Q :=
  match Prim2SF d with
  | S754_zero _ => Some 0%Q
  | S754_finite s m e =>
      let v := (inject_Z (Z.pos m) * Qpower 2 e)%Q in
      Some (if s then Qopp v else v)
  | S754_infinity _ | S754_nan => None
  end.

(** A partial division that refuses a zero divisor; used to show that a
    guard keeps the divisor away from zero. *)
Definition checked_div (a b : float) : option float :=
  if is_zero b then None else Some (a / b)%float.

End Double.

(** ** The trend detector: [Watchdog::Pt] and [Watchdog::slope] *)

(** [struct Pt { Clock::time_point t; size_t bytes; }]: [t] in steady-clock
    ticks (nanoseconds) since the clock's epoch. *)
Record Pt := mkPt { t : Z; bytes : Z }.

Definition deque (A : Type) := list A.

(** [std::chrono::duration<double, std::milli>(p.t.time_since_epoch()).count()]:
    the tick count converted to [double] and divided by the period ratio
    [1000000]. *)
Definition millis (p : Pt) : float :=
  (Double.of_Z (t p) / 1000000)%float.

(** The four running sums of the [for] loop. *)
Record sums := mkSums { sx : float; sy : float; sxy : float; sx2 : float }.

(** One iteration: [sx += x; sy += y; sxy += x*y; sx2 += x*x;]. *)
Definition accumulate (s : sums) (p : Pt) : sums :=
  let x := millis p in
  let y := Double.of_Z (bytes p) in
  {| sx := (sx s + x)%float;
     sy := (sy s + y)%float;
     sxy := (sxy s + x * y)%float;
     sx2 := (sx2 s + x * x)%float |}.

Definition loop_sums (buf : deque Pt) : sums :=
  fold_left accumulate buf (mkSums 0 0 0 0).

(** [double n = buf.size()]. *)
Definition size_d (buf : deque Pt) : float :=
  Double.of_Z (Z.of_nat (length buf)).

(** [double denom = n*sx2 - sx*sx]. *)
Definition denom (buf : deque Pt) : float :=
  let s := loop_sums buf in
  (size_d buf * sx2 s - sx s * sx s)%float.

(** The body of [Watchdog::slope], with the two ways it produces its result
    left open: [ret] for the [return] of a constant, [divide] for the final
    [return (n*sxy - sx*sy) / denom]. *)
Definition slope_body {R : Type} (ret : float -> R) (divide : float -> float -> R)
    (buf : deque Pt) : R :=
  if Z.of_nat (length buf) <? 3 then ret 0%float
  else
    let n := size_d buf in
    let s := loop_sums buf in
    let denom := (n * sx2 s - sx s * sx s)%float in
    if Double.is_zero denom then ret 0%float
    else divide (n * sxy s - sx s * sy s)%float denom.

(** [static double slope(const std::deque<Pt> &buf)]. *)
Definition slope (buf : deque Pt) : float :=
  slope_body (fun d => d) PrimFloat.div buf.

(** The same body run with the refusing division: [None] would mean that
    the division was reached with a zero divisor. *)
Definition slope_checked (buf : deque Pt) : option float :=
  slope_body Some Double.checked_div buf.

(** *** The formula of the specification *)

(** [Σ f] over the window, in doubles, added oldest sample first. *)
Definition dsum (f : Pt -> float) (buf : deque Pt) : float :=
  fold_left (fun acc p => (acc + f p)%float) buf 0%float.

(** (n·Σxy − Σx·Σy) / (n·Σx² − (Σx)²) with every operation in doubles. *)
Definition ols_double (buf : deque Pt) : float :=
  let n := size_d buf in
  let Sx := dsum millis buf in
  let Sy := dsum (fun p => Double.of_Z (bytes p)) buf in
  let Sxy := dsum (fun p => millis p * Double.of_Z (bytes p))%float buf in
  let Sx2 := dsum (fun p => millis p * millis p)%float buf in
  ((n * Sxy - Sx * Sy) / (n * Sx2 - Sx * Sx))%float.

(** The same formula over the rationals, [x] the timestamp in milliseconds
    and [y] the byte count: the ordinary-least-squares value itself. *)
Definition qsum (f : Pt -> Q) (buf : deque Pt) : Q :=
  fold_left (fun acc p => (acc + f p)%Q) buf 0%Q.

Definition x_ms (p : Pt) : Q := (inject_Z (t p) / inject_Z 1000000)%Q.
Definition y_bytes (p : Pt) : Q := inject_Z (bytes p).

Definition ols_exact (buf : deque Pt) : Q :=
  let n := inject_Z (Z.of_nat (length buf)) in
  let Sx := qsum x_ms buf in
  let Sy := qsum y_bytes buf in
  let Sxy := qsum (fun p => x_ms p * y_bytes p)%Q buf in
  let Sx2 := qsum (fun p => x_ms p * x_ms p)%Q buf in
  ((n * Sxy - Sx * Sy) / (n * Sx2 - Sx * Sx))%Q.

(** The denominator n·Σx² − (Σx)² of that formula over the rationals. *)
Definition denom_exact (buf : deque Pt) : Q :=
  let n := inject_Z (Z.of_nat (length buf)) in
  let Sx := qsum x_ms buf in
  let Sx2 := qsum (fun p => x_ms p * x_ms p)%Q buf in
  (n * Sx2 - Sx * Sx)%Q.

(** The computed slope is a finite double whose value is the rational [q]. *)
Definition slope_is (buf : deque Pt) (q : Q) : Prop :=
  exists v, Double.to_Q (slope buf) = Some v /\ Qeq v q.

(** Not all timestamps of the window are identical. *)
Definition timestamps_differ (buf : deque Pt) : Prop :=
  exists p q, In p buf /\ In q buf /\ t p <> t q.

(** The samples of the specification's example: (0 ms, 100), (1 ms, 200),
    (2 ms, 300). *)
Definition three_points : deque Pt :=
  [mkPt 0 100; mkPt 1000000 200; mkPt 2000000 300].

(** Three samples one millisecond apart, 2^27 ms (about 37 hours) after the
    clock's epoch, growing by 100 bytes per millisecond. *)
Definition late_points : deque Pt :=
  [mkPt 134217728000000 100; mkPt 134217729000000 200; mkPt 134217730000000 300].

(** The window that shows what the zero test guards: three samples taken at
    the same instant (5 ms). *)
Definition same_instant : deque Pt :=
  [mkPt 5000000 100; mkPt 5000000 200; mkPt 5000000 300].

(** Three samples taken at the same instant 123.456789 ms. *)
Definition same_instant_inexact : deque Pt :=
  [mkPt 123456789 100; mkPt 123456789 200; mkPt 123456789 307].

(** ** Snapshot files: [std::ofstream], [v8::OutputStream], [DumpSnapshot] *)

(** What the process cannot control about the file system: whether a path
    can be opened for writing, and whether the [k]-th write that reaches
    the device fails (disk full, I/O error). *)
Record disk := mkDisk { opens : string -> bool; write_fails : nat -> bool }.

(** A [std::ofstream]: [is_open], [good] (no error bit set), the chunks
    that reached the file, and the number of writes that reached the
    device. *)
Record ofstream := mkOfstream {
  is_open : bool;
  good : bool;
  contents : list string;
  device_writes : nat;
  device : disk
}.

(** [std::ofstream out(path, std::ios::binary)]: a failed open leaves the
    stream closed with its fail bit set. *)
Definition ofstream_open (d : disk) (path : string) : ofstream :=
  {| is_open := opens d path; good := opens d path; contents := [];
     device_writes := 0; device := d |}.

(** [file.write(data, size)]: nothing happens on a stream that is not good;
    a write the device refuses sets the bad bit. The stream is taken
    without its buffer: every write reaches the device at once and whole.
    A real stream may keep a chunk in its buffer and meet the failure only
    at a later write, at [flush] or at [close]; what is proved with this
    definition is about the value the helpers return, which does not look
    at the state of the stream after the open. *)
Definition ofstream_write (data : string) (f : ofstream) : ofstream :=
  if good f then
    if write_fails (device f) (device_writes f)
    then {| is_open := is_open f; good := false; contents := contents f;
            device_writes := S (device_writes f); device := device f |}
    else {| is_open := is_open f; good := true; contents := contents f ++ [data];
            device_writes := S (device_writes f); device := device f |}
  else f.

Definition ofstream_flush (f : ofstream) : ofstream := f.

Definition ofstream_close (f : ofstream) : ofstream :=
  {| is_open := false; good := good f; contents := contents f;
     device_writes := device_writes f; device := device f |}.

(** [v8::OutputStream::WriteResult]. *)
Inductive WriteResult := kContinue | kAbort.

(** The interface [v8::OutputStream] with its two virtual members. *)
Class OutputStream (S : Type) := {
  WriteAsciiChunk : string -> S -> S * WriteResult;
  EndOfStream : S -> S
}.

(** [mw::FileStream] of addon.cc: a reference to the caller's stream. *)
Record FileStream := mkFileStream { file_ : ofstream }.

#[export] Instance FileStream_OutputStream : OutputStream FileStream := {
  WriteAsciiChunk data s := (mkFileStream (ofstream_write data (file_ s)), kContinue);
  EndOfStream s := mkFileStream (ofstream_flush (file_ s))
}.

(** [memwatchdog::FileOutputStream] of snapshot.hpp: owns its stream. *)
Record FileOutputStream := mkFileOutputStream { fos_file_ : ofstream }.

Definition isValid (s : FileOutputStream) : bool := is_open (fos_file_ s).

#[export] Instance FileOutputStream_OutputStream : OutputStream FileOutputStream := {
  WriteAsciiChunk data s :=
    let f := ofstream_write data (fos_file_ s) in
    (mkFileOutputStream f, if good f then kContinue else kAbort);
  EndOfStream s := mkFileOutputStream (ofstream_close (fos_file_ s))
}.

(** The part of a [v8::Isolate] the addon reads: the used heap size of
    [GetHeapStatistics] and the chunks its heap snapshot serialises to. *)
Record Isolate := mkIsolate { used_heap_size : Z; heap_snapshot : list string }.

(** [v8::HeapSnapshot::Serialize(stream, kJSON)]. V8 is not part of the
    repository; its serialiser hands the snapshot to the stream chunk by
    chunk, stops at the first [kAbort], and otherwise ends with
    [EndOfStream]. *)
Fixpoint Serialize {S : Type} `{OutputStream S} (chunks : list string) (s : S) : S :=
  match chunks with
  | [] => EndOfStream s
  | c :: rest =>
      match WriteAsciiChunk c s with
      | (s', kContinue) => Serialize rest s'
      | (s', kAbort) => s'
      end
  end.

(** [static bool DumpSnapshot(v8::Isolate *iso, const std::string &path)];
    the second component is the file as the call leaves it. *)
Definition DumpSnapshot (d : disk) (iso : Isolate) (path : string) : bool * ofstream :=
  let out := ofstream_open d path in
  if negb (is_open out) then (false, out)
  else
    let stream := Serialize (heap_snapshot iso) (mkFileStream out) in
    (true, file_ stream).

(** [HeapSnapshotWriter::write(path)] of snapshot.hpp; [current] is the
    result of [v8::Isolate::GetCurrent()], [None] for a null pointer. *)
Definition HeapSnapshotWriter_write (d : disk) (current : option Isolate)
    (path : string) : bool * option ofstream :=
  match current with
  | None => (false, None)
  | Some isolate =>
      let snapshot := heap_snapshot isolate in
      let stream := mkFileOutputStream (ofstream_open d path) in
      if negb (isValid stream) then (false, Some (fos_file_ stream))
      else (true, Some (fos_file_ (Serialize snapshot stream)))
  end.

(** ** JavaScript values and the thread-safe function *)

Definition ptr := positive.

#[warning="-register-all"]
Inductive js_value :=
  | JsUndefined
  | JsNull
  | JsBoolean (b : bool)
  | JsNumber (d : float)
  | JsFunction (id : nat)
  | JsExternal (data : ptr)
  | JsObject (props : gmap string js_value).

(** The closure handed to [BlockingCall]: its captures [sl] and [file]. *)
Record AlertEvent := mkAlert { alert_slope : float; alert_file : string }.

(** [Napi::ThreadSafeFunction], created with an unbounded queue
    ([max_queue_size = 0]) and one thread. node-addon-api is not part of the
    repository; the model keeps what its documentation fixes: calls are
    queued for the JavaScript thread, whose event loop runs them one at a
    time; a call on a closing function is refused with [napi_closing];
    [Abort] marks the function closing, and what is still queued on a
    closing function is dropped without calling into JavaScript. *)
Record ThreadSafeFunction := mkTsfn {
  js_callback : js_value;
  queue : list AlertEvent;
  closing : bool
}.

Inductive napi_status := napi_ok | napi_closing.

Definition BlockingCall (ev : AlertEvent) (f : ThreadSafeFunction)
    : ThreadSafeFunction * napi_status :=
  if closing f then (f, napi_closing)
  else ({| js_callback := js_callback f; queue := queue f ++ [ev];
           closing := false |}, napi_ok).

Definition Abort (f : ThreadSafeFunction) : ThreadSafeFunction :=
  {| js_callback := js_callback f; queue := queue f; closing := true |}.

(** ** The watchdog and one cycle of [Watchdog::loop] *)

(** [struct Options]; the [uint32_t] fields are [N]. *)
Record Options := mkOptions {
  interval : N;
  window : N;
  threshold : float;
  tsfn : ThreadSafeFunction
}.

(** The data members of [class Watchdog] that the loop reads and writes. *)
Record Watchdog := mkWatchdog {
  buf_ : deque Pt;
  running_ : bool;
  opts_ : Options
}.

(** What one iteration reads from outside the process state: the steady
    clock, the isolate, the wall clock of [std::time(nullptr)] and the file
    system. [isolate] is what [iso] points to; the loop takes [iso] from
    [v8::Isolate::GetCurrent()] on its own thread and uses it unchecked, so
    an iteration is described here for a thread that has a current
    isolate. On a thread without one the iteration faults at
    [GetHeapStatistics] and has no effect of those described below. *)
Record cycle_env := mkEnv {
  now : Z;
  isolate : Isolate;
  time_now : Z;
  files : disk
}.

(** What an iteration does that an observer of the thread can see. *)
Inductive effect :=
  | SnapshotAttempt (file : string) (ok : bool)
  | Dispatch (ev : AlertEvent).

(** ["heap-" + std::to_string(std::time(nullptr)) + ".heapsnapshot"]. *)
Definition snapshot_name (time : Z) : string :=
  "heap-" +:+ NilZero.string_of_int (Z.to_int time) +:+ ".heapsnapshot".

(** [buf_.push_back({Clock::now(), used});
     if (buf_.size() > opts_.window) buf_.pop_front();] *)
Definition push_sample (window : N) (p : Pt) (buf : deque Pt) : deque Pt :=
  let buf1 := buf ++ [p] in
  if (window <? N.of_nat (length buf1))%N then tl buf1 else buf1.

Definition sample_of (e : cycle_env) : Pt :=
  mkPt (now e) (used_heap_size (isolate e)).

Definition with_tsfn (o : Options) (f : ThreadSafeFunction) : Options :=
  {| interval := interval o; window := window o; threshold := threshold o;
     tsfn := f |}.

(** The body of the [while] loop after the sleep. *)
Definition cycle (e : cycle_env) (w : Watchdog) : Watchdog * list effect :=
  let buf := push_sample (window (opts_ w)) (sample_of e) (buf_ w) in
  let sl := slope buf in
  if Double.geb sl (threshold (opts_ w)) then
    let file := snapshot_name (time_now e) in
    if fst (DumpSnapshot (files e) (isolate e) file) then
      let ev := mkAlert sl file in
      let f := fst (BlockingCall ev (tsfn (opts_ w))) in
      ({| buf_ := buf; running_ := running_ w; opts_ := with_tsfn (opts_ w) f |},
       [SnapshotAttempt file true; Dispatch ev])
    else
      ({| buf_ := buf; running_ := running_ w; opts_ := opts_ w |},
       [SnapshotAttempt file false])
  else
    ({| buf_ := buf; running_ := running_ w; opts_ := opts_ w |}, []).

(** [Watchdog::loop] run by itself: one element of [envs] for each
    iteration the thread gets to start. *)
Fixpoint loop (envs : list cycle_env) (w : Watchdog) : Watchdog * list effect :=
  match envs with
  | [] => (w, [])
  | e :: rest =>
      if running_ w then
        let (w1, fx1) := cycle e w in
        let (w2, fx2) := loop rest w1 in
        (w2, fx1 ++ fx2)
      else (w, [])
  end.

Definition is_attempt (x : effect) : bool :=
  match x with SnapshotAttempt _ _ => true | Dispatch _ => false end.

Definition is_dispatch (x : effect) : bool :=
  match x with Dispatch _ => true | SnapshotAttempt _ _ => false end.

Definition capture_attempted (fx : list effect) : bool := existsb is_attempt fx.
Definition dispatched (fx : list effect) : bool := existsb is_dispatch fx.

(** ** The N-API glue: [Start] and [Stop] *)

(** [obj.Get(key)]: the property, or [undefined] when the object has none. *)
Definition Get (obj : gmap string js_value) (key : string) : js_value :=
  default JsUndefined (obj !! key).

(** [Napi::Value::ToNumber()]. A function and a plain object coerce to NaN
    (through their string form); [None] for the values whose coercion runs
    script code (an object with a [valueOf] or a [toString] of its own) or
    is an error (a handle). *)
Definition ToNumber (v : js_value) : option float :=
  match v with
  | JsUndefined => Some nan
  | JsNull => Some 0%float
  | JsBoolean b => Some (if b then 1%float else 0%float)
  | JsNumber d => Some d
  | JsFunction _ => Some nan
  | JsObject props =>
      match props !! "valueOf", props !! "toString" with
      | None, None => Some nan
      | _, _ => None
      end
  | JsExternal _ => None
  end.

(** [Napi::Number::Uint32Value()]: NaN and the infinities give 0, every
    other number is truncated towards zero and reduced modulo 2^32. *)
Definition Uint32Value (d : float) : N :=
  match Prim2SF d with
  | S754_finite s m e =>
      let a := if (0 <=? e)%Z then Z.shiftl (Z.pos m) e
               else Z.shiftr (Z.pos m) (- e) in
      Z.to_N ((if s then - a else a) mod 2 ^ 32)
  | S754_zero _ | S754_infinity _ | S754_nan => 0%N
  end.

Definition DoubleValue (d : float) : float := d.

(** The native heap: the [Watchdog] objects that are alive, and the next
    address [new] hands out (addresses below it that are not alive were
    deleted). *)
Record native := mkNative { live : gmap ptr Watchdog; next : ptr }.

(** What a call can do besides returning. *)
Inductive undefined_behaviour :=
  | DeleteOfDeletedObject (p : ptr)
  | DeleteOfForeignPointer (p : ptr).

Inductive outcome (A : Type) :=
  | Returns (a : A)
  | Undefined (ub : undefined_behaviour).
Arguments Returns {A} a.
Arguments Undefined {A} ub.

(** The constructor [Watchdog(Options opts, Napi::Env env)]: the running
    flag is set and the thread started on an empty window. *)
Definition Watchdog_new (o : Options) : Watchdog :=
  {| buf_ := []; running_ := true; opts_ := o |}.

(** [static Napi::Value Start(const Napi::CallbackInfo &info)]; [None] when
    the call hands no handle back to its caller or is outside the model:
    the argument is not an object, a coercion is outside [ToNumber], or
    [cb] is not a function ([Napi::ThreadSafeFunction::New] then fails and
    the caller gets an error instead of a handle). *)
Definition Start (info : list js_value) (st : native) : option (native * js_value) :=
  opts ← match info with
         | [] => Some ∅
         | JsObject o :: _ => Some o
         | _ => None
         end;
  interval_n ← ToNumber (Get opts "interval");
  window_n ← ToNumber (Get opts "window");
  threshold_n ← ToNumber (Get opts "threshold");
  let interval := Uint32Value interval_n in
  let window := Uint32Value window_n in
  let threshold := DoubleValue threshold_n in
  let cb := Get opts "cb" in
  match cb with
  | JsFunction _ =>
      let tsfn := mkTsfn cb [] false in
      let o := {| interval := if (interval =? 0)%N then 60000%N else interval;
                  window := if (window =? 0)%N then 30%N else window;
                  threshold := if Double.truthy threshold then threshold
                               else 1024%float;
                  tsfn := tsfn |} in
      let wd := Watchdog_new o in
      Some ({| live := <[next st := wd]> (live st); next := Pos.succ (next st) |},
            JsExternal (next st))
  | _ => None
  end.

(** [delete p] for a [Watchdog *p]: an object that is alive is destroyed
    and freed (what its destructor does to the two threads is the subject
    of [step] below); on any other pointer the behaviour is undefined. *)
Definition delete_Watchdog (p : ptr) (st : native) : outcome native :=
  match live st !! p with
  | Some _ => Returns {| live := delete p (live st); next := next st |}
  | None =>
      Undefined (if (p <? next st)%positive then DeleteOfDeletedObject p
                 else DeleteOfForeignPointer p)
  end.

(** [static Napi::Value Stop(const Napi::CallbackInfo &info)]. *)
Definition Stop (info : list js_value) (st : native) : outcome (native * js_value) :=
  match info with
  | JsExternal p :: _ =>
      match delete_Watchdog p st with
      | Returns st' => Returns (st', JsUndefined)
      | Undefined ub => Undefined ub
      end
  | _ => Returns (st, JsUndefined)
  end.

(** The finalizer [Start] attaches to the handle,
    [[](Napi::Env, Watchdog *p){ delete p; }], run when the handle is
    collected. *)
Definition External_finalizer (p : ptr) (st : native) : outcome native :=
  delete_Watchdog p st.

(** The options of the watchdog that [Start] creates from [info] on an
    empty heap. *)
Definition started_options (info : list js_value) : option Options :=
  match Start info (mkNative ∅ 1%positive) with
  | Some (st, JsExternal p) => opts_ <$> live st !! p
  | _ => None
  end.

(** The property is not set, or is a number that compares equal to zero. *)
Definition unset_or_zero (v : js_value) : Prop :=
  v = JsUndefined \/ exists d, v = JsNumber d /\ Double.is_zero d = true.

(** ** The watchdog thread and the JavaScript thread together *)

(** Where the watchdog thread is in [Watchdog::loop]: at the test of the
    [while], inside an iteration (asleep, sampling or capturing; [e] is
    what the iteration reads), or returned from [loop]. *)
Inductive worker_pc :=
  | AtLoopTest
  | InCycle (e : cycle_env)
  | ThreadExited.

(** Where the JavaScript thread is: in its event loop before [stop] is
    called, inside [~Watchdog] after each of its three statements, or back
    in the event loop after [Stop] returned. *)
Inductive js_pc :=
  | JsRunning
  | DtorStoredFalse
  | DtorJoined
  | DtorAborted
  | JsStopped.

Inductive observation :=
  | CallbackInvoked (ev : AlertEvent)
  | AbortCompleted
  | StopReturned.

Record system := mkSystem {
  wd : Watchdog;
  worker : worker_pc;
  js : js_pc;
  trace : list observation
}.

Definition set_running (b : bool) (w : Watchdog) : Watchdog :=
  {| buf_ := buf_ w; running_ := b; opts_ := opts_ w |}.

Definition set_tsfn (f : ThreadSafeFunction) (w : Watchdog) : Watchdog :=
  {| buf_ := buf_ w; running_ := running_ w; opts_ := with_tsfn (opts_ w) f |}.

Definition set_queue (q : list AlertEvent) (f : ThreadSafeFunction)
    : ThreadSafeFunction :=
  {| js_callback := js_callback f; queue := q; closing := closing f |}.

(** The event loop runs queued calls only while the JavaScript thread is
    not inside native code. *)
Definition in_event_loop (pc : js_pc) : bool :=
  match pc with JsRunning | JsStopped => true | _ => false end.

(** One atomic step of either thread. The watchdog thread: the test of
    [running_.load()], and an iteration of the loop body ([cycle]). The
    JavaScript thread inside [Stop], i.e. [~Watchdog]:
    [running_.store(false)], [thread_.join()] (possible once the thread has
    returned), [opts_.tsfn.Abort()], then the return of [Stop]. The event
    loop: one queued call is taken and the callback invoked, unless the
    function is closing, in which case the queue is emptied without calling
    back. *)
Inductive step : system -> system -> Prop :=
  | worker_enters s e :
      worker s = AtLoopTest -> running_ (wd s) = true ->
      step s (mkSystem (wd s) (InCycle e) (js s) (trace s))
  | worker_leaves s :
      worker s = AtLoopTest -> running_ (wd s) = false ->
      step s (mkSystem (wd s) ThreadExited (js s) (trace s))
  | worker_cycles s e :
      worker s = InCycle e ->
      step s (mkSystem (fst (cycle e (wd s))) AtLoopTest (js s) (trace s))
  | stop_stores s :
      js s = JsRunning ->
      step s (mkSystem (set_running false (wd s)) (worker s) DtorStoredFalse (trace s))
  | stop_joins s :
      js s = DtorStoredFalse -> worker s = ThreadExited ->
      step s (mkSystem (wd s) (worker s) DtorJoined (trace s))
  | stop_aborts s :
      js s = DtorJoined ->
      step s (mkSystem (set_tsfn (Abort (tsfn (opts_ (wd s)))) (wd s))
                (worker s) DtorAborted (trace s ++ [AbortCompleted]))
  | stop_returns s :
      js s = DtorAborted ->
      step s (mkSystem (wd s) (worker s) JsStopped (trace s ++ [StopReturned]))
  | loop_calls s ev q :
      in_event_loop (js s) = true ->
      closing (tsfn (opts_ (wd s))) = false ->
      queue (tsfn (opts_ (wd s))) = ev :: q ->
      step s (mkSystem (set_tsfn (set_queue q (tsfn (opts_ (wd s)))) (wd s))
                (worker s) (js s) (trace s ++ [CallbackInvoked ev]))
  | loop_closes s :
      in_event_loop (js s) = true ->
      closing (tsfn (opts_ (wd s))) = true ->
      step s (mkSystem (set_tsfn (set_queue [] (tsfn (opts_ (wd s)))) (wd s))
                (worker s) (js s) (trace s)).

(** The system right after [Start]: the thread about to test the flag and
    the JavaScript thread back in its event loop. *)
Definition started (o : Options) : system :=
  mkSystem (Watchdog_new o) AtLoopTest JsRunning [].

Definition reachable (o : Options) (s : system) : Prop := rtc step (started o) s.

(** ** Notions used by the further properties *)

(** The alerts among the effects of a run, oldest first. *)
Definition alerts (fx : list effect) : list AlertEvent :=
  omap (fun x => match x with Dispatch ev => Some ev | SnapshotAttempt _ _ => None end) fx.

(** What a sequence of [BlockingCall]s leaves of a thread-safe function. *)
Definition enqueue (f : ThreadSafeFunction) (evs : list AlertEvent)
    : ThreadSafeFunction :=
  fold_left (fun f ev => fst (BlockingCall ev f)) evs f.

(** The destructor is past [thread_.join()]. *)
Definition past_join (pc : js_pc) : bool :=
  match pc with DtorJoined | DtorAborted | JsStopped => true | _ => false end.

(** The thread is inside an iteration of its loop. *)
Definition in_cycle (pc : worker_pc) : bool :=
  match pc with InCycle _ => true | _ => false end.

(** What the two threads keep true of the running flag and of the join:
    the flag is false from the moment [stop] has stored it, and the
    destructor gets past the join only when the thread has returned. *)
Definition shutdown_invariant (s : system) : Prop :=
  (js s <> JsRunning -> running_ (wd s) = false) /\
  (past_join (js s) = true -> worker s = ThreadExited).


(** ** Concrete environments used by the examples *)

(** A file system on which every path opens and every write fails. *)
Definition full_disk : disk := mkDisk (fun _ => true) (fun _ => true).

(** A file system on which no path can be opened. *)
Definition closed_disk : disk := mkDisk (fun _ => false) (fun _ => false).

(** A thread-safe function with nothing queued. *)
Definition idle_tsfn : ThreadSafeFunction := mkTsfn (JsFunction 0) [] false.

(** A running watchdog that already holds the first two samples of
    [three_points]; [win] and [th] are its window and threshold. *)
Definition two_samples (win : N) (th : float) : Watchdog :=
  {| buf_ := [mkPt 0 100; mkPt 1000000 200];
     running_ := true;
     opts_ := mkOptions 1 win th idle_tsfn |}.

(** A freshly constructed watchdog: empty window, running. *)
Definition fresh_watchdog (win : N) (th : float) : Watchdog :=
  {| buf_ := []; running_ := true; opts_ := mkOptions 1 win th idle_tsfn |}.

(** The iteration that reads the sample (2 ms, 300) on file system [d]. *)
Definition third_sample (d : disk) : cycle_env :=
  mkEnv 2000000 (mkIsolate 300 ["{"; "}"]) 1700000000 d.

(** The iterations that read the three samples of [three_points]. *)
Definition three_cycles (d : disk) : list cycle_env :=
  [mkEnv 0 (mkIsolate 100 ["{"; "}"]) 1700000000 d;
   mkEnv 1000000 (mkIsolate 200 ["{"; "}"]) 1700000000 d;
   third_sample d].

(** Options objects: negative numbers for all three settings; only the
    callback; and an interval of zero. *)
Definition negative_options : gmap string js_value :=
  <["interval" := JsNumber (-1)%float]>
    (<["window" := JsNumber (-1)%float]>
       (<["threshold" := JsNumber (-1)%float]>
          (<["cb" := JsFunction 0]> ∅))).

Definition callback_only : gmap string js_value := <["cb" := JsFunction 0]> ∅.

Definition zero_interval : gmap string js_value :=
  <["interval" := JsNumber 0%float]>
    (<["window" := JsNumber 10%float]>
       (<["threshold" := JsNumber 2.5%float]>
          (<["cb" := JsFunction 0]> ∅))).

(** The options of the run used as an example below: window 30,
    threshold 100 bytes/ms. *)
Definition demo_options : Options := mkOptions 1 30 100 idle_tsfn.

(** The alert that the third cycle of [three_cycles] raises. *)
Definition demo_alert : AlertEvent := mkAlert 100 "heap-1700000000.heapsnapshot".

(** The observations that mark the end of [stop]. *)
Definition is_stop_mark (x : observation) : bool :=
  match x with
  | CallbackInvoked _ => false
  | AbortCompleted | StopReturned => true
  end.

(** What the invariant of the two threads says of a state: the function is
    closing once the destructor is past [Abort], and as soon as the trace
    holds a mark of [stop]; and no callback follows such a mark in the
    trace. *)
Definition stop_invariant (s : system) : Prop :=
  (js s = DtorAborted -> closing (tsfn (opts_ (wd s))) = true) /\
  (forall x, x ∈ trace s -> is_stop_mark x = true ->
     closing (tsfn (opts_ (wd s))) = true) /\
  (forall pre x post, trace s = pre ++ x :: post -> is_stop_mark x = true ->
     forall ev, CallbackInvoked ev ∉ post).

(** * Properties *)

(** ** Lemmas on the loop of [slope] *)

Lemma fold_accumulate (buf : deque Pt) (s : sums) :
  fold_left accumulate buf s =
  {| sx := fold_left (fun acc p => (acc + millis p)%float) buf (sx s);
     sy := fold_left (fun acc p => (acc + Double.of_Z (bytes p))%float) buf (sy s);
     sxy := fold_left (fun acc p => (acc + millis p * Double.of_Z (bytes p))%float)
              buf (sxy s);
     sx2 := fold_left (fun acc p => (acc + millis p * millis p)%float) buf (sx2 s) |}.
Proof.
  revert s. induction buf as [|p buf IH]; intros s.
  - destruct s; reflexivity.
  - cbn [fold_left]. rewrite IH. reflexivity.
Qed.

Lemma loop_sums_dsum (buf : deque Pt) :
  loop_sums buf =
  {| sx := dsum millis buf;
     sy := dsum (fun p => Double.of_Z (bytes p)) buf;
     sxy := dsum (fun p => millis p * Double.of_Z (bytes p))%float buf;
     sx2 := dsum (fun p => millis p * millis p)%float buf |}.
Proof. unfold loop_sums. rewrite fold_accumulate. reflexivity. Qed.

Lemma slope_short (buf : deque Pt) :
  (length buf < 3)%nat -> slope buf = 0%float.
Proof.
  intros Hlen. unfold slope, slope_body.
  destruct (Z.ltb_spec (Z.of_nat (length buf)) 3) as [_|Hge]; [reflexivity | lia].
Qed.

Lemma slope_long (buf : deque Pt) :
  (3 <= length buf)%nat ->
  slope buf =
  if Double.is_zero (denom buf) then 0%float
  else let s := loop_sums buf in
       ((size_d buf * sxy s - sx s * sy s) / denom buf)%float.
Proof.
  intros Hlen. unfold slope, slope_body, denom.
  destruct (Z.ltb_spec (Z.of_nat (length buf)) 3) as [Hlt|_]; [lia | reflexivity].
Qed.

(** ** Theorems on [slope] *)

(** C7: for every window with fewer than 3 samples, [slope] returns exactly
    [0.0]. *)
Theorem slope_fewer_than_three (buf : deque Pt) :
  (length buf < 3)%nat -> slope buf = 0%float.
Proof. apply slope_short. Qed.

Lemma slope_fewer_than_three_witness :
  slope [mkPt 0 100; mkPt 1000000 5000] = 0%float.
Proof. apply slope_fewer_than_three. simpl. lia. Defined.

(** C8, amended: the division of [slope] is guarded. Whenever the
    denominator n·Σx² − (Σx)² as computed in doubles compares equal to
    zero, [slope] returns [0.0]; and on every window the division, if
    reached at all, has a divisor different from zero (the refusing
    division never refuses). *)
Theorem slope_division_guarded (buf : deque Pt) :
  (Double.is_zero (denom buf) = true -> slope buf = 0%float) /\
  slope_checked buf = Some (slope buf).
Proof.
  split.
  - intros Hz. destruct (Nat.lt_ge_cases (length buf) 3) as [Hlt|Hge].
    + now apply slope_short.
    + rewrite (slope_long buf Hge), Hz. reflexivity.
  - unfold slope_checked, slope, slope_body.
    destruct (Z.of_nat (length buf) <? 3); [reflexivity|].
    unfold Double.checked_div.
    destruct (Double.is_zero _); reflexivity.
Qed.

Lemma slope_division_guarded_witness :
  Double.is_zero (denom same_instant) = true /\
  slope same_instant = 0%float /\
  slope_checked same_instant = Some 0%float.
Proof.
  pose proof (slope_division_guarded same_instant) as [Hzero Hchk].
  assert (Hz : Double.is_zero (denom same_instant) = true) by (vm_compute; reflexivity).
  split; [exact Hz|]. split; [exact (Hzero Hz)|].
  rewrite Hchk, (Hzero Hz). reflexivity.
Defined.

(** C8, as the specification states it, fails on [same_instant_inexact]:
    the three timestamps are identical, the denominator n·Σx² − (Σx)² is
    zero over the rationals, and [slope] does not return [0.0]. The squares
    of 123.456789 are not representable, the rounded sums leave the
    computed denominator at about 2.9e-11, the zero test does not fire and
    the division returns 1.0. *)
Lemma slope_identical_timestamps_not_zero :
  (3 <= length same_instant_inexact)%nat /\
  (forall p q, In p same_instant_inexact -> In q same_instant_inexact -> t p = t q) /\
  Qeq (denom_exact same_instant_inexact) 0 /\
  Double.is_zero (denom same_instant_inexact) = false /\
  slope same_instant_inexact = 1%float /\
  PrimFloat.eqb (slope same_instant_inexact) 0 = false.
Proof.
  split; [simpl; lia|]. split; [|repeat split; vm_compute; reflexivity].
  intros p q Hp Hq. simpl in Hp, Hq.
  destruct Hp as [<-|[<-|[<-|[]]]]; destruct Hq as [<-|[<-|[<-|[]]]]; reflexivity.
Qed.

(** C4, as the specification states it, fails on [late_points]: the window
    has three samples with pairwise different timestamps, the
    ordinary-least-squares value is 100 bytes/ms, and [slope] returns 0.
    In doubles Σx² = 3·2^54 + 3·2^28 (the exact sum 3·2^54 + 3·2^28 + 5 is
    not representable), n·Σx² = 9·2^54 + 9·2^28, (Σx)² rounds to the same
    double, the denominator is 0 and the zero test returns [0.0]. *)
Lemma slope_late_points_not_ols :
  (3 <= length late_points)%nat /\
  timestamps_differ late_points /\
  Qeq (ols_exact late_points) 100 /\
  slope late_points = 0%float /\
  ~ slope_is late_points (ols_exact late_points).
Proof.
  assert (Hs : slope late_points = 0%float) by (vm_compute; reflexivity).
  split; [simpl; lia|]. split; [|split; [|split]].
  - exists (mkPt 134217728000000 100), (mkPt 134217729000000 200).
    simpl. split; [tauto|]. split; [tauto|]. discriminate.
  - vm_compute. reflexivity.
  - exact Hs.
  - intros (v & Hv & Heq). rewrite Hs in Hv.
    assert (v = 0%Q) as -> by (vm_compute in Hv; congruence).
    vm_compute in Heq. discriminate.
Qed.

(** C4, amended: for every window with at least 3 samples whose computed
    denominator is not zero, [slope] returns the formula
    (n·Σxy − Σx·Σy) / (n·Σx² − (Σx)²) evaluated in doubles, the sums taken
    oldest sample first; for the samples (0 ms, 100), (1 ms, 200),
    (2 ms, 300) that is exactly 100.0, the ordinary-least-squares value. *)
Theorem slope_ols_double :
  (forall buf : deque Pt,
      (3 <= length buf)%nat ->
      Double.is_zero (denom buf) = false ->
      slope buf = ols_double buf) /\
  slope three_points = 100%float /\
  slope_is three_points (ols_exact three_points).
Proof.
  split; [|split].
  - intros buf Hlen Hden. rewrite (slope_long buf Hlen), Hden.
    unfold ols_double, denom. cbv zeta.
    rewrite (loop_sums_dsum buf). reflexivity.
  - vm_compute. reflexivity.
  - eexists. split; vm_compute; reflexivity.
Qed.

Lemma slope_ols_double_witness :
  slope three_points = ols_double three_points.
Proof.
  apply (proj1 slope_ols_double three_points).
  - simpl. lia.
  - vm_compute. reflexivity.
Defined.

(** ** Snapshot capture *)

Lemma ofstream_write_device (data : string) (f : ofstream) :
  device (ofstream_write data f) = device f.
Proof.
  unfold ofstream_write.
  destruct (good f); [destruct (write_fails (device f) (device_writes f))|];
    reflexivity.
Qed.

Lemma ofstream_write_refused (data : string) (f : ofstream) :
  (forall k, write_fails (device f) k = true) ->
  contents (ofstream_write data f) = contents f.
Proof.
  intros Hfail. unfold ofstream_write.
  destruct (good f); [rewrite Hfail|]; reflexivity.
Qed.

Lemma Serialize_FileStream_refused (chunks : list string) (f : ofstream) :
  (forall k, write_fails (device f) k = true) ->
  contents (file_ (Serialize chunks (mkFileStream f))) = contents f.
Proof.
  revert f. induction chunks as [|c chunks IH]; intros f Hfail.
  - reflexivity.
  - cbn [Serialize WriteAsciiChunk FileStream_OutputStream file_].
    rewrite IH.
    + now apply ofstream_write_refused.
    + now rewrite ofstream_write_device.
Qed.

Lemma DumpSnapshot_result (d : disk) (iso : Isolate) (path : string) :
  fst (DumpSnapshot d iso path) = opens d path.
Proof.
  unfold DumpSnapshot. cbn [ofstream_open is_open].
  destruct (opens d path); reflexivity.
Qed.

(** C10: snapshot capture reports failure if and only if the output file
    cannot be opened. Once the file is open [DumpSnapshot] returns [true]
    whatever the writes do: also when every write fails and nothing reaches
    the file. The same holds for [HeapSnapshotWriter::write] on a thread
    that has a current isolate. *)
Theorem DumpSnapshot_fails_iff_not_opened (d : disk) (iso : Isolate) (path : string) :
  (fst (DumpSnapshot d iso path) = false <-> opens d path = false) /\
  (opens d path = true -> (forall k, write_fails d k = true) ->
   fst (DumpSnapshot d iso path) = true /\
   contents (snd (DumpSnapshot d iso path)) = []) /\
  (fst (HeapSnapshotWriter_write d (Some iso) path) = false <-> opens d path = false).
Proof.
  split; [|split].
  - now rewrite DumpSnapshot_result.
  - intros Hopen Hfail. split; [now rewrite DumpSnapshot_result|].
    unfold DumpSnapshot. cbn [ofstream_open is_open]. rewrite Hopen.
    cbn [negb snd]. now rewrite Serialize_FileStream_refused.
  - unfold HeapSnapshotWriter_write, isValid.
    cbn [fos_file_ ofstream_open is_open].
    destruct (opens d path); cbn; split; congruence.
Qed.

Lemma DumpSnapshot_fails_iff_not_opened_witness :
  fst (DumpSnapshot full_disk (mkIsolate 4096 ["{"; "}"]) "heap-0.heapsnapshot") = true /\
  contents (snd (DumpSnapshot full_disk (mkIsolate 4096 ["{"; "}"])
                   "heap-0.heapsnapshot")) = [].
Proof.
  apply (DumpSnapshot_fails_iff_not_opened full_disk (mkIsolate 4096 ["{"; "}"])
           "heap-0.heapsnapshot").
  - reflexivity.
  - intros k. reflexivity.
Defined.

(** ** The trend window *)

Lemma push_sample_bounded (win : N) (p : Pt) (buf : deque Pt) :
  (length buf <= N.to_nat win)%nat ->
  (length (push_sample win p buf) <= N.to_nat win)%nat.
Proof.
  intros Hlen. unfold push_sample.
  destruct (N.ltb_spec win (N.of_nat (length (buf ++ [p])))) as [Hlt|Hge].
  - destruct buf as [|a buf]; cbn [app tl] in *; [simpl; lia|].
    rewrite length_app in *. cbn [length] in *. lia.
  - lia.
Qed.

Lemma push_sample_full (win : N) (p : Pt) (buf : deque Pt) :
  (0 < win)%N -> length buf = N.to_nat win ->
  push_sample win p buf = tl buf ++ [p].
Proof.
  intros Hpos Hlen. unfold push_sample.
  destruct (N.ltb_spec win (N.of_nat (length (buf ++ [p])))) as [Hlt|Hge].
  - destruct buf as [|a buf]; [cbn [length] in Hlen; lia | reflexivity].
  - rewrite length_app in Hge. cbn [length] in Hge. lia.
Qed.

Lemma pushes_keep_newest (win : N) (pts buf : deque Pt) :
  (length buf <= N.to_nat win)%nat ->
  fold_left (fun b p => push_sample win p b) pts buf =
  skipn (length (buf ++ pts) - N.to_nat win) (buf ++ pts).
Proof.
  revert buf. induction pts as [|p pts IH]; intros buf Hlen.
  - rewrite app_nil_r. replace (length buf - N.to_nat win)%nat with 0%nat by lia.
    reflexivity.
  - cbn [fold_left]. rewrite IH by now apply push_sample_bounded.
    unfold push_sample.
    destruct (N.ltb_spec win (N.of_nat (length (buf ++ [p])))) as [Hlt|Hge].
    + rewrite length_app in Hlt. cbn [length] in Hlt.
      destruct buf as [|a buf].
      * cbn [app tl length] in *.
        replace (S (length pts) - N.to_nat win)%nat
          with (S (length pts - N.to_nat win)) by lia.
        reflexivity.
      * cbn [app tl]. rewrite <- app_assoc. cbn [app length].
        rewrite !length_app in *. cbn [length] in *.
        replace (S (length buf + S (length pts)) - N.to_nat win)%nat
          with (S (length buf + S (length pts) - N.to_nat win)) by lia.
        reflexivity.
    + rewrite <- app_assoc. reflexivity.
Qed.

Lemma cycle_buf (e : cycle_env) (w : Watchdog) :
  buf_ (fst (cycle e w)) = push_sample (window (opts_ w)) (sample_of e) (buf_ w).
Proof.
  unfold cycle. destruct (Double.geb _ _); [|reflexivity].
  destruct (fst (DumpSnapshot _ _ _)); reflexivity.
Qed.

Lemma cycle_running (e : cycle_env) (w : Watchdog) :
  running_ (fst (cycle e w)) = running_ w.
Proof.
  unfold cycle. destruct (Double.geb _ _); [|reflexivity].
  destruct (fst (DumpSnapshot _ _ _)); reflexivity.
Qed.

Lemma cycle_window (e : cycle_env) (w : Watchdog) :
  window (opts_ (fst (cycle e w))) = window (opts_ w).
Proof.
  unfold cycle. destruct (Double.geb _ _); [|reflexivity].
  destruct (fst (DumpSnapshot _ _ _)); reflexivity.
Qed.

Lemma loop_buf (envs : list cycle_env) (w : Watchdog) :
  running_ w = true ->
  buf_ (fst (loop envs w)) =
  fold_left (fun b p => push_sample (window (opts_ w)) p b)
    (map sample_of envs) (buf_ w).
Proof.
  revert w. induction envs as [|e envs IH]; intros w Hrun; [reflexivity|].
  cbn [loop map fold_left]. rewrite Hrun.
  pose proof (cycle_buf e w) as Hb. pose proof (cycle_running e w) as Hr.
  pose proof (cycle_window e w) as Hw.
  destruct (cycle e w) as [w1 fx1]. cbn [fst] in *.
  specialize (IH w1). destruct (loop envs w1) as [w2 fx2]. cbn [fst] in *.
  rewrite IH by congruence. now rewrite Hb, Hw.
Qed.

Lemma loop_stopped (envs : list cycle_env) (w : Watchdog) :
  running_ w = false -> loop envs w = (w, []).
Proof. intros Hrun. destruct envs; cbn [loop]; [|rewrite Hrun]; reflexivity. Qed.

Lemma loop_bounded (envs : list cycle_env) (w : Watchdog) :
  (length (buf_ w) <= N.to_nat (window (opts_ w)))%nat ->
  (length (buf_ (fst (loop envs w))) <= N.to_nat (window (opts_ w)))%nat.
Proof.
  intros Hlen. destruct (running_ w) eqn:Hrun.
  - rewrite (loop_buf envs w Hrun), pushes_keep_newest by exact Hlen.
    rewrite length_skipn. lia.
  - now rewrite (loop_stopped envs w Hrun).
Qed.

(** ** One cycle: trigger, capture, dispatch *)

Lemma SFcompare_Eq_sym (a b : spec_float) :
  SFcompare a b = Some Eq -> SFcompare b a = Some Eq.
Proof.
  destruct a as [sa|sa| |sa ma ea], b as [sb|sb| |sb mb eb]; cbn;
    try destruct sa; try destruct sb; try congruence.
  all: destruct (Z.compare_spec ea eb) as [->| |]; try congruence.
  all: rewrite Z.compare_refl.
  all: intros H; f_equal; injection H as H.
  all: change (Pos.compare_cont Eq ma mb) with (Pos.compare ma mb) in H.
  all: change (Pos.compare_cont Eq mb ma) with (Pos.compare mb ma).
  all: destruct (Pos.compare_spec ma mb) as [->| |]; try discriminate.
  all: now rewrite Pos.compare_refl.
Qed.

(** Doubles that compare equal also compare [>=]. *)
Lemma double_eq_geb (a b : float) :
  PrimFloat.eqb a b = true -> Double.geb a b = true.
Proof.
  unfold Double.geb. rewrite FloatAxioms.eqb_spec, FloatAxioms.leb_spec. unfold SFeqb, SFleb.
  destruct (SFcompare (Prim2SF a) (Prim2SF b)) as [[]|] eqn:H; try discriminate.
  intros _. now rewrite (SFcompare_Eq_sym _ _ H).
Qed.

Lemma cycle_effects (e : cycle_env) (w : Watchdog) :
  snd (cycle e w) =
  if Double.geb (slope (push_sample (window (opts_ w)) (sample_of e) (buf_ w)))
       (threshold (opts_ w))
  then
    if opens (files e) (snapshot_name (time_now e))
    then [SnapshotAttempt (snapshot_name (time_now e)) true;
          Dispatch (mkAlert (slope (push_sample (window (opts_ w)) (sample_of e)
                                      (buf_ w)))
                      (snapshot_name (time_now e)))]
    else [SnapshotAttempt (snapshot_name (time_now e)) false]
  else [].
Proof.
  unfold cycle. rewrite DumpSnapshot_result.
  destruct (Double.geb _ _); [|reflexivity].
  destruct (opens _ _); reflexivity.
Qed.

(** C6, as the specification states it, fails in a cycle whose capture
    fails: the window becomes [three_points], the slope 100.0 equals the
    threshold 100.0, the capture is attempted, the file cannot be opened,
    and no dispatch is made although the slope meets the threshold. *)
Lemma no_dispatch_at_threshold_when_capture_fails :
  let w := two_samples 30 100 in
  let e := third_sample closed_disk in
  slope (buf_ (fst (cycle e w))) = 100%float /\
  Double.geb (slope (buf_ (fst (cycle e w)))) (threshold (opts_ w)) = true /\
  snd (cycle e w) = [SnapshotAttempt "heap-1700000000.heapsnapshot" false] /\
  dispatched (snd (cycle e w)) = false.
Proof. cbv zeta. repeat split; vm_compute; reflexivity. Qed.

(** C6, amended: in every cycle the snapshot capture is attempted exactly
    when the computed slope is greater than or equal to the threshold, and
    the alert is dispatched exactly when, in addition, the capture succeeds;
    a slope equal to the threshold triggers the capture (the boundary is
    inclusive) and, on success, the dispatch. *)
Theorem cycle_capture_and_dispatch (e : cycle_env) (w : Watchdog) :
  let sl := slope (buf_ (fst (cycle e w))) in
  let th := threshold (opts_ w) in
  let file := snapshot_name (time_now e) in
  let fx := snd (cycle e w) in
  capture_attempted fx = Double.geb sl th /\
  dispatched fx =
    Double.geb sl th && fst (DumpSnapshot (files e) (isolate e) file) /\
  (PrimFloat.eqb sl th = true ->
   capture_attempted fx = true /\
   dispatched fx = fst (DumpSnapshot (files e) (isolate e) file)).
Proof.
  cbv zeta. rewrite cycle_buf, cycle_effects, DumpSnapshot_result.
  set (sl := slope _). set (file := snapshot_name _).
  assert (Hfx :
    capture_attempted
      (if Double.geb sl (threshold (opts_ w))
       then if opens (files e) file
            then [SnapshotAttempt file true; Dispatch (mkAlert sl file)]
            else [SnapshotAttempt file false]
       else []) = Double.geb sl (threshold (opts_ w)) /\
    dispatched
      (if Double.geb sl (threshold (opts_ w))
       then if opens (files e) file
            then [SnapshotAttempt file true; Dispatch (mkAlert sl file)]
            else [SnapshotAttempt file false]
       else []) = Double.geb sl (threshold (opts_ w)) && opens (files e) file).
  { destruct (Double.geb sl _), (opens (files e) file); split; reflexivity. }
  destruct Hfx as [Hc Hd]. split; [exact Hc|]. split; [exact Hd|].
  intros Heq. rewrite Hc, Hd, (double_eq_geb _ _ Heq). split; reflexivity.
Qed.

Lemma cycle_capture_and_dispatch_witness :
  capture_attempted (snd (cycle (third_sample full_disk) (two_samples 30 100))) = true /\
  dispatched (snd (cycle (third_sample full_disk) (two_samples 30 100))) = true.
Proof.
  destruct (cycle_capture_and_dispatch (third_sample full_disk) (two_samples 30 100))
    as (_ & _ & Hboundary).
  destruct Hboundary as [Hc Hd]; [vm_compute; reflexivity|].
  split; [exact Hc|]. rewrite Hd. vm_compute. reflexivity.
Defined.

(** C9: in every cycle in which the slope meets the threshold and the
    snapshot capture fails, no alert is dispatched (the cycle's only effect
    is the failed attempt and nothing is queued on the thread-safe
    function), the running flag stays set, and the loop goes on with the
    next cycle. *)
Theorem capture_failure_suppresses_alert
    (e : cycle_env) (rest : list cycle_env) (w : Watchdog) :
  running_ w = true ->
  Double.geb (slope (push_sample (window (opts_ w)) (sample_of e) (buf_ w)))
    (threshold (opts_ w)) = true ->
  fst (DumpSnapshot (files e) (isolate e) (snapshot_name (time_now e))) = false ->
  let w1 := fst (cycle e w) in
  snd (cycle e w) = [SnapshotAttempt (snapshot_name (time_now e)) false] /\
  dispatched (snd (cycle e w)) = false /\
  tsfn (opts_ w1) = tsfn (opts_ w) /\
  running_ w1 = true /\
  loop (e :: rest) w =
    (fst (loop rest w1),
     SnapshotAttempt (snapshot_name (time_now e)) false :: snd (loop rest w1)).
Proof.
  intros Hrun Hge Hfail. cbv zeta.
  assert (Hcycle : cycle e w =
    ({| buf_ := push_sample (window (opts_ w)) (sample_of e) (buf_ w);
        running_ := running_ w; opts_ := opts_ w |},
     [SnapshotAttempt (snapshot_name (time_now e)) false])).
  { unfold cycle. rewrite Hge, Hfail. reflexivity. }
  cbn [loop]. rewrite Hrun, Hcycle. cbn [fst snd opts_ running_].
  repeat split; try assumption.
  destruct (loop rest _) as [w2 fx2]. reflexivity.
Qed.

Lemma capture_failure_suppresses_alert_witness :
  loop [third_sample closed_disk; third_sample closed_disk] (two_samples 30 100) =
  (fst (loop [third_sample closed_disk]
          (fst (cycle (third_sample closed_disk) (two_samples 30 100)))),
   SnapshotAttempt "heap-1700000000.heapsnapshot" false ::
   snd (loop [third_sample closed_disk]
          (fst (cycle (third_sample closed_disk) (two_samples 30 100))))).
Proof.
  apply (capture_failure_suppresses_alert (third_sample closed_disk)
           [third_sample closed_disk] (two_samples 30 100)).
  - reflexivity.
  - vm_compute. reflexivity.
  - reflexivity.
Defined.

(** ** [Start]: defaults *)

Lemma is_zero_Prim2SF (d : float) :
  Double.is_zero d = true -> exists s, Prim2SF d = S754_zero s.
Proof.
  unfold Double.is_zero. rewrite FloatAxioms.eqb_spec.
  change (Prim2SF 0%float) with (S754_zero false).
  destruct (Prim2SF d) as [s|s| |s m e]; cbn; try discriminate.
  - intros _. now exists s.
  - destruct s; discriminate.
  - destruct s; discriminate.
Qed.

Lemma Uint32Value_zero (d : float) :
  Double.is_zero d = true -> Uint32Value d = 0%N.
Proof.
  intros Hz. destruct (is_zero_Prim2SF d Hz) as [s Hs].
  unfold Uint32Value. now rewrite Hs.
Qed.

Lemma Uint32Value_unset_or_zero (v : js_value) (d : float) :
  unset_or_zero v -> ToNumber v = Some d -> Uint32Value d = 0%N.
Proof.
  intros [->|(d' & -> & Hz)] Hd; cbn in Hd; injection Hd as <-.
  - reflexivity.
  - now apply Uint32Value_zero.
Qed.

Lemma Start_inv (opts : gmap string js_value) (st st' : native) (h : js_value) :
  Start [JsObject opts] st = Some (st', h) ->
  exists i w th,
    ToNumber (Get opts "interval") = Some i /\
    ToNumber (Get opts "window") = Some w /\
    ToNumber (Get opts "threshold") = Some th /\
    h = JsExternal (next st) /\
    next st' = Pos.succ (next st) /\
    live st' !! next st =
      Some (Watchdog_new
              {| interval := if (Uint32Value i =? 0)%N then 60000%N else Uint32Value i;
                 window := if (Uint32Value w =? 0)%N then 30%N else Uint32Value w;
                 threshold := if Double.truthy th then th else 1024%float;
                 tsfn := mkTsfn (Get opts "cb") [] false |}).
Proof.
  unfold Start. cbn [mbind option_bind].
  destruct (ToNumber (Get opts "interval")) as [i|]; [|discriminate].
  destruct (ToNumber (Get opts "window")) as [w|]; [|discriminate].
  destruct (ToNumber (Get opts "threshold")) as [th|]; [|discriminate].
  cbn [mbind option_bind].
  destruct (Get opts "cb") as [| | | |id| |]; try discriminate.
  intros H. injection H as <- <-.
  exists i, w, th. repeat split; try reflexivity.
  cbn [live]. apply lookup_insert_eq.
Qed.

(** [Start] never creates a watchdog with a zero interval or a zero
    window. *)
Lemma Start_positive (opts : gmap string js_value) (st st' : native) (h : js_value) :
  Start [JsObject opts] st = Some (st', h) ->
  exists w, live st' !! next st = Some w /\
            (0 < interval (opts_ w))%N /\ (0 < window (opts_ w))%N.
Proof.
  intros HS. destruct (Start_inv opts st st' h HS)
    as (i & w & th & _ & _ & _ & _ & _ & Hlive).
  eexists. split; [exact Hlive|].
  cbn [opts_ Watchdog_new interval window].
  split.
  - destruct (N.eqb_spec (Uint32Value i) 0); lia.
  - destruct (N.eqb_spec (Uint32Value w) 0); lia.
Qed.

(** C3, as the specification states it, fails on [negative_options]: the
    interval, the window and the threshold are all [-1], a non-positive
    value, and none of them is replaced by its default. [Uint32Value]
    reduces [-1] modulo 2^32, and the tests [interval ? ... : ...] and
    [threshold ? ... : ...] only catch zero. *)
Lemma Start_keeps_negative_values :
  started_options [JsObject negative_options] =
    Some (mkOptions 4294967295 4294967295 (-1)%float idle_tsfn) /\
  4294967295%N <> 60000%N /\
  4294967295%N <> 30%N /\
  PrimFloat.eqb (-1)%float 1024%float = false.
Proof. repeat split; try discriminate; vm_compute; reflexivity. Qed.

(** C3, amended: for every options object passed to start, an interval or
    a window that is unset or zero is replaced by its default (60000 ms,
    30), and a threshold that is zero is replaced by 1024.0; every other
    number is kept, the interval and the window as [Uint32Value] reads it
    (truncated, modulo 2^32) when that is not zero. In particular start
    with interval 0 or interval unset uses 60000 ms. *)
Theorem Start_replaces_unset_and_zero
    (opts : gmap string js_value) (st st' : native) (h : js_value) :
  Start [JsObject opts] st = Some (st', h) ->
  exists w,
    h = JsExternal (next st) /\
    live st' !! next st = Some w /\
    (unset_or_zero (Get opts "interval") -> interval (opts_ w) = 60000%N) /\
    (unset_or_zero (Get opts "window") -> window (opts_ w) = 30%N) /\
    (forall d, Get opts "threshold" = JsNumber d ->
       threshold (opts_ w) = if Double.is_zero d then 1024%float else d) /\
    (forall d, Get opts "interval" = JsNumber d -> Uint32Value d <> 0%N ->
       interval (opts_ w) = Uint32Value d) /\
    (forall d, Get opts "window" = JsNumber d -> Uint32Value d <> 0%N ->
       window (opts_ w) = Uint32Value d).
Proof.
  intros HS. destruct (Start_inv opts st st' h HS)
    as (i & w & th & Hi & Hw & Hth & -> & _ & Hlive).
  eexists. split; [reflexivity|]. split; [exact Hlive|].
  cbn [opts_ Watchdog_new interval window threshold].
  repeat split.
  - intros Hu. now rewrite (Uint32Value_unset_or_zero _ _ Hu Hi).
  - intros Hu. now rewrite (Uint32Value_unset_or_zero _ _ Hu Hw).
  - intros d Hd. rewrite Hd in Hth. injection Hth as <-.
    unfold Double.truthy. destruct (Double.is_zero d); reflexivity.
  - intros d Hd Hnz. rewrite Hd in Hi. injection Hi as <-.
    destruct (N.eqb_spec (Uint32Value d) 0); [contradiction|reflexivity].
  - intros d Hd Hnz. rewrite Hd in Hw. injection Hw as <-.
    destruct (N.eqb_spec (Uint32Value d) 0); [contradiction|reflexivity].
Qed.

Lemma Start_replaces_unset_and_zero_witness :
  match Start [JsObject zero_interval] (mkNative ∅ 1%positive) with
  | Some (st', h) =>
      exists w, h = JsExternal 1%positive /\ live st' !! 1%positive = Some w /\
                interval (opts_ w) = 60000%N /\
                window (opts_ w) = 10%N /\
                threshold (opts_ w) = 2.5%float
  | None => False
  end.
Proof.
  destruct (Start [JsObject zero_interval] (mkNative ∅ 1%positive))
    as [[st' h]|] eqn:HS.
  - destruct (Start_replaces_unset_and_zero _ _ _ _ HS)
      as (w & Hh & Hlive & Hint & _ & Hth & _ & Hwin).
    exists w. split; [exact Hh|]. split; [exact Hlive|]. split; [|split].
    + apply Hint. right. exists 0%float. split; reflexivity.
    + apply (Hwin 10%float); [reflexivity | vm_compute; discriminate].
    + apply (Hth 2.5%float). reflexivity.
  - vm_compute in HS. discriminate.
Defined.

(** What [Start] does with an unset threshold: [ToNumber] of [undefined]
    is NaN, NaN converts to [true], and the watchdog gets the threshold
    NaN where [struct Options] documents the default 1024.0. *)
Lemma Start_unset_threshold_is_nan :
  started_options [JsObject callback_only] =
    Some (mkOptions 60000 30 nan idle_tsfn).
Proof. vm_compute. reflexivity. Qed.

(** With the threshold NaN no cycle ever attempts a capture. *)
Lemma cycle_nan_threshold (e : cycle_env) (w : Watchdog) :
  threshold (opts_ w) = nan -> snd (cycle e w) = [].
Proof.
  intros Hnan. rewrite cycle_effects, Hnan. unfold Double.geb.
  rewrite FloatAxioms.leb_spec. change (Prim2SF nan) with S754_nan.
  reflexivity.
Qed.

(** ** [Stop] *)

Lemma Stop_after_Stop (st : native) (p : ptr) (w : Watchdog) :
  live st !! p = Some w -> (p < next st)%positive ->
  exists st2,
    Stop [JsExternal p] st = Returns (st2, JsUndefined) /\
    Stop [JsExternal p] st2 = Undefined (DeleteOfDeletedObject p) /\
    External_finalizer p st2 = Undefined (DeleteOfDeletedObject p).
Proof.
  intros Hlive Hlt. eexists. unfold External_finalizer.
  cbn [Stop]. unfold delete_Watchdog at 1. rewrite Hlive.
  split; [reflexivity|].
  unfold delete_Watchdog. cbn [live next]. rewrite lookup_delete_eq.
  apply Pos.ltb_lt in Hlt. rewrite Hlt. split; reflexivity.
Qed.

(** C2 on the code: [start] followed by two calls of [stop] on the handle.
    The first [Stop] deletes the watchdog and returns [undefined]; the
    second finds the same pointer in the handle, passes the [IsExternal]
    test and deletes it again, which is undefined behaviour, not a no-op.
    The finalizer of the handle does the same when the handle is
    collected after a single [stop]. *)
Theorem Stop_twice_deletes_twice :
  exists st1 st2,
    Start [JsObject callback_only] (mkNative ∅ 1%positive) =
      Some (st1, JsExternal 1%positive) /\
    Stop [JsExternal 1%positive] st1 = Returns (st2, JsUndefined) /\
    Stop [JsExternal 1%positive] st2 = Undefined (DeleteOfDeletedObject 1%positive) /\
    External_finalizer 1%positive st2 = Undefined (DeleteOfDeletedObject 1%positive).
Proof.
  destruct (Start [JsObject callback_only] (mkNative ∅ 1%positive))
    as [[st1 h]|] eqn:HS; [|vm_compute in HS; discriminate].
  destruct (Start_inv _ _ _ _ HS) as (i & w & th & _ & _ & _ & -> & Hnext & Hlive).
  cbn [next] in *.
  destruct (Stop_after_Stop st1 1%positive _ Hlive) as (st2 & H1 & H2 & H3).
  { rewrite Hnext. reflexivity. }
  exists st1, st2. repeat split; assumption.
Qed.

(** ** No callback after [stop] *)

Lemma BlockingCall_closing (ev : AlertEvent) (f : ThreadSafeFunction) :
  closing (fst (BlockingCall ev f)) = closing f.
Proof. unfold BlockingCall. destruct (closing f) eqn:Hc; [exact Hc|reflexivity]. Qed.

Lemma cycle_closing (e : cycle_env) (w : Watchdog) :
  closing (tsfn (opts_ (fst (cycle e w)))) = closing (tsfn (opts_ w)).
Proof.
  unfold cycle. destruct (Double.geb _ _); [|reflexivity].
  destruct (fst (DumpSnapshot _ _ _)); [|reflexivity].
  cbn [fst opts_ with_tsfn tsfn]. apply BlockingCall_closing.
Qed.

Lemma snoc_split (tr pre post : list observation) (x y : observation) :
  tr ++ [y] = pre ++ x :: post ->
  (post = [] /\ tr = pre /\ y = x) \/
  (exists post', post = post' ++ [y] /\ tr = pre ++ x :: post').
Proof.
  intros Heq. induction post as [|z post' _] using rev_ind.
  - left. apply app_inj_tail in Heq as [-> ->]. repeat split.
  - right. exists post'.
    change (pre ++ x :: post' ++ [z]) with (pre ++ (x :: post') ++ [z]) in Heq.
    rewrite app_assoc in Heq. apply app_inj_tail in Heq as [-> ->].
    split; reflexivity.
Qed.

Lemma stop_invariant_started (o : Options) : stop_invariant (started o).
Proof.
  split; [|split]; cbn.
  - discriminate.
  - intros x Hin. now apply elem_of_nil in Hin.
  - intros [|z pre] x post H; discriminate.
Qed.

(** Appending an observation that is not a callback keeps the trace part
    of the invariant. *)
Lemma trace_invariant_mark (tr : list observation) (y : observation) :
  is_stop_mark y = true ->
  (forall pre x post, tr = pre ++ x :: post -> is_stop_mark x = true ->
     forall ev, CallbackInvoked ev ∉ post) ->
  forall pre x post, tr ++ [y] = pre ++ x :: post -> is_stop_mark x = true ->
    forall ev, CallbackInvoked ev ∉ post.
Proof.
  intros Hy Htr pre x post Heq Hx ev Hin.
  destruct (snoc_split _ _ _ _ _ Heq) as [(-> & _ & _)|(post' & -> & ->)].
  - now apply elem_of_nil in Hin.
  - apply elem_of_app in Hin as [Hin|Hin].
    + exact (Htr pre x post' eq_refl Hx ev Hin).
    + apply list_elem_of_singleton in Hin. subst y. discriminate.
Qed.

Lemma stop_invariant_step (s s' : system) :
  stop_invariant s -> step s s' -> stop_invariant s'.
Proof.
  intros (Hdtor & Hmark & Htrace) Hstep.
  destruct Hstep
    as [s e Hw Hr|s Hw Hr|s e Hw|s Hj|s Hj Hw|s Hj|s Hj|s ev q Hj Hc Hq|s Hj Hc];
    unfold stop_invariant;
    cbn [js trace wd opts_ tsfn closing set_running set_tsfn with_tsfn
         set_queue Abort].
  - (* the thread enters an iteration *)
    exact (conj Hdtor (conj Hmark Htrace)).
  - (* the thread returns from [loop] *)
    exact (conj Hdtor (conj Hmark Htrace)).
  - (* the thread runs the body *)
    rewrite cycle_closing. exact (conj Hdtor (conj Hmark Htrace)).
  - (* [running_.store(false)] *)
    split; [discriminate|]. exact (conj Hmark Htrace).
  - (* [thread_.join()] *)
    split; [discriminate|]. exact (conj Hmark Htrace).
  - (* [opts_.tsfn.Abort()] *)
    split; [reflexivity|]. split; [reflexivity|].
    now apply trace_invariant_mark.
  - (* [Stop] returns *)
    split; [discriminate|]. split; [intros _ _ _; now apply Hdtor|].
    now apply trace_invariant_mark.
  - (* the event loop invokes the callback *)
    split; [exact Hdtor|]. split.
    + intros x Hin Hx. apply elem_of_app in Hin as [Hin|Hin]; [now apply (Hmark x)|].
      apply list_elem_of_singleton in Hin. subst x. discriminate.
    + intros pre x post Heq Hx ev' _.
      destruct (snoc_split _ _ _ _ _ Heq) as [(_ & _ & <-)|(post' & _ & Htr)];
        [discriminate|].
      rewrite (Hmark x) in Hc; [discriminate| |exact Hx].
      rewrite Htr. apply elem_of_app. right. apply elem_of_cons. now left.
  - (* the event loop drops the queue of a closing function *)
    exact (conj Hdtor (conj Hmark Htrace)).
Qed.

Lemma reachable_stop_invariant (o : Options) (s : system) :
  reachable o s -> stop_invariant s.
Proof.
  unfold reachable. intros Hrtc.
  apply (rtc_ind_r (R := step) stop_invariant (started o)); [| |exact Hrtc].
  - apply stop_invariant_started.
  - intros s1 s2 _ Hstep IH. exact (stop_invariant_step s1 s2 IH Hstep).
Qed.

(** C1: in every run of a watchdog, whatever the interleaving of its
    thread, the JavaScript thread and the event loop, no callback is
    invoked after [Abort] has completed inside [stop], hence none after
    [stop] has returned: also when [stop] is called while an iteration of
    the loop (sleep, sample, capture, dispatch) is under way. *)
Theorem no_callback_after_stop (o : Options) (s : system) :
  reachable o s ->
  forall pre x post, trace s = pre ++ x :: post ->
  x = AbortCompleted \/ x = StopReturned ->
  forall ev, CallbackInvoked ev ∉ post.
Proof.
  intros Hreach pre x post Heq Hx.
  destruct (reachable_stop_invariant o s Hreach) as (_ & _ & Htrace).
  apply (Htrace pre x post Heq). destruct Hx as [-> | ->]; reflexivity.
Qed.

(** A run in which [stop] is called while the third iteration is under
    way: the iteration completes, captures a snapshot and queues its alert;
    the thread then leaves the loop, the destructor joins it, aborts the
    function and [Stop] returns; the event loop drops the queued alert. *)
Lemma no_callback_after_stop_witness :
  exists mid final,
    reachable demo_options mid /\
    js mid = DtorJoined /\
    queue (tsfn (opts_ (wd mid))) = [demo_alert] /\
    rtc step mid final /\
    trace final = [AbortCompleted] ++ StopReturned :: [] /\
    queue (tsfn (opts_ (wd final))) = [] /\
    (forall ev, CallbackInvoked ev ∉ ([] : list observation)).
Proof.
  assert (Hmid : exists mid,
    reachable demo_options mid /\ js mid = DtorJoined /\
    worker mid = ThreadExited /\ trace mid = [] /\
    queue (tsfn (opts_ (wd mid))) = [demo_alert]).
  { eexists. split; [|split; [|split; [|split]]].
    - unfold reachable.
      eapply rtc_l.
      { apply (worker_enters _ (mkEnv 0 (mkIsolate 100 ["{"; "}"]) 1700000000 full_disk));
          reflexivity. }
      eapply rtc_l; [eapply worker_cycles; reflexivity|].
      eapply rtc_l.
      { apply (worker_enters _ (mkEnv 1000000 (mkIsolate 200 ["{"; "}"]) 1700000000
                                  full_disk)); reflexivity. }
      eapply rtc_l; [eapply worker_cycles; reflexivity|].
      eapply rtc_l.
      { apply (worker_enters _ (third_sample full_disk)); reflexivity. }
      eapply rtc_l; [apply stop_stores; reflexivity|].
      eapply rtc_l; [eapply worker_cycles; reflexivity|].
      eapply rtc_l; [apply worker_leaves; reflexivity|].
      eapply rtc_l; [apply stop_joins; reflexivity|].
      apply rtc_refl.
    - reflexivity.
    - reflexivity.
    - reflexivity.
    - vm_compute. reflexivity. }
  destruct Hmid as (mid & Hreach & Hjs & Hworker & Htrace & Hqueue).
  assert (Hfinal : exists final,
    rtc step mid final /\ trace final = [AbortCompleted] ++ StopReturned :: [] /\
    queue (tsfn (opts_ (wd final))) = []).
  { eexists. split; [|split].
    - eapply rtc_l; [apply stop_aborts; exact Hjs|].
      eapply rtc_l; [apply stop_returns; reflexivity|].
      eapply rtc_l; [apply loop_closes; reflexivity|].
      apply rtc_refl.
    - cbn [trace]. rewrite Htrace. reflexivity.
    - reflexivity. }
  destruct Hfinal as (final & Hrun & Hfinal_trace & Hfinal_queue).
  exists mid, final.
  split; [exact Hreach|]. split; [exact Hjs|]. split; [exact Hqueue|].
  split; [exact Hrun|]. split; [exact Hfinal_trace|]. split; [exact Hfinal_queue|].
  assert (Hreach' : reachable demo_options final)
    by exact (rtc_trans _ _ _ Hreach Hrun).
  exact (no_callback_after_stop demo_options final Hreach' [AbortCompleted]
           StopReturned [] Hfinal_trace (or_intror eq_refl)).
Defined.

(** ** The window bound in every reachable state *)

Lemma reachable_window_bounded (o : Options) (s : system) :
  reachable o s ->
  window (opts_ (wd s)) = window o /\
  (length (buf_ (wd s)) <= N.to_nat (window o))%nat.
Proof.
  unfold reachable. intros Hrtc.
  apply (rtc_ind_r (R := step)
           (fun s => window (opts_ (wd s)) = window o /\
                     (length (buf_ (wd s)) <= N.to_nat (window o))%nat)
           (started o)); [| |exact Hrtc].
  - split; [reflexivity|]. cbn. lia.
  - intros s1 s2 _ Hstep [Hwin Hlen].
    destruct Hstep; cbn [wd]; try (split; assumption).
    rewrite cycle_window, cycle_buf. split; [exact Hwin|].
    rewrite Hwin. apply push_sample_bounded. exact Hlen.
Qed.

(** C5: the trend window never holds more than [window] samples, in any
    state the two threads can reach and after any number of cycles; a push
    onto a window that holds [window] samples drops exactly the oldest one
    and keeps the new one last; and after [window+1] pushes into an empty
    window the window holds [window] samples, namely all pushed samples but
    the first, the last pushed sample being the newest. *)
Theorem window_bounded_fifo :
  (forall (o : Options) (s : system),
      reachable o s -> (length (buf_ (wd s)) <= N.to_nat (window o))%nat) /\
  (forall (envs : list cycle_env) (w : Watchdog),
      (length (buf_ w) <= N.to_nat (window (opts_ w)))%nat ->
      (length (buf_ (fst (loop envs w))) <= N.to_nat (window (opts_ w)))%nat) /\
  (forall (win : N) (p : Pt) (buf : deque Pt),
      (0 < win)%N -> length buf = N.to_nat win ->
      push_sample win p buf = tl buf ++ [p]) /\
  (forall (envs : list cycle_env) (w : Watchdog),
      (0 < window (opts_ w))%N -> running_ w = true -> buf_ w = [] ->
      length envs = S (N.to_nat (window (opts_ w))) ->
      let pushed := map sample_of envs in
      let buf := buf_ (fst (loop envs w)) in
      length buf = N.to_nat (window (opts_ w)) /\
      buf = tl pushed /\
      last buf = last pushed).
Proof.
  split; [intros o s Hreach; exact (proj2 (reachable_window_bounded o s Hreach))|].
  split; [exact loop_bounded|]. split; [exact push_sample_full|].
  intros envs w Hpos Hrun Hempty Hlen pushed buf.
  assert (Hp : length pushed = S (N.to_nat (window (opts_ w))))
    by (unfold pushed; now rewrite length_map).
  assert (Hbuf : buf = tl pushed).
  { unfold buf. rewrite (loop_buf envs w Hrun), Hempty.
    rewrite pushes_keep_newest by (cbn [length]; lia).
    cbn [app]. fold pushed. rewrite Hp.
    replace (S (N.to_nat (window (opts_ w))) - N.to_nat (window (opts_ w)))%nat
      with 1%nat by lia.
    destruct pushed; reflexivity. }
  rewrite Hbuf. destruct pushed as [|a [|b rest]]; cbn [length tl] in *; try lia.
  split; [lia|]. split; reflexivity.
Qed.

Lemma window_bounded_fifo_witness :
  buf_ (fst (loop (three_cycles closed_disk) (fresh_watchdog 2 1024))) =
  [mkPt 1000000 200; mkPt 2000000 300].
Proof.
  destruct window_bounded_fifo as (_ & _ & _ & Hfifo).
  destruct (Hfifo (three_cycles closed_disk) (fresh_watchdog 2 1024))
    as (_ & Htl & _).
  - reflexivity.
  - reflexivity.
  - reflexivity.
  - reflexivity.
  - exact Htl.
Defined.


(** * Further properties of the code *)

(** ** What a run of the loop does to the watchdog *)

Lemma with_tsfn_same (o : Options) : with_tsfn o (tsfn o) = o.
Proof. now destruct o. Qed.

Lemma alerts_app (fx1 fx2 : list effect) :
  alerts (fx1 ++ fx2) = alerts fx1 ++ alerts fx2.
Proof. unfold alerts. apply omap_app. Qed.

Lemma cycle_opts (e : cycle_env) (w : Watchdog) :
  opts_ (fst (cycle e w)) =
  with_tsfn (opts_ w) (enqueue (tsfn (opts_ w)) (alerts (snd (cycle e w)))).
Proof.
  unfold cycle. destruct (Double.geb _ _); [|cbn; now rewrite with_tsfn_same].
  destruct (fst (DumpSnapshot _ _ _)); cbn; [reflexivity|now rewrite with_tsfn_same].
Qed.

Lemma loop_opts (envs : list cycle_env) (w : Watchdog) :
  opts_ (fst (loop envs w)) =
  with_tsfn (opts_ w) (enqueue (tsfn (opts_ w)) (alerts (snd (loop envs w)))).
Proof.
  revert w. induction envs as [|e envs IH]; intros w.
  - cbn. now rewrite with_tsfn_same.
  - cbn [loop]. destruct (running_ w); [|cbn; now rewrite with_tsfn_same].
    pose proof (cycle_opts e w) as Hc.
    destruct (cycle e w) as [w1 fx1]. cbn [fst snd] in Hc.
    specialize (IH w1). destruct (loop envs w1) as [w2 fx2]. cbn [fst snd] in *.
    rewrite IH, Hc, alerts_app. unfold enqueue. rewrite fold_left_app.
    reflexivity.
Qed.

Lemma loop_running (envs : list cycle_env) (w : Watchdog) :
  running_ (fst (loop envs w)) = running_ w.
Proof.
  revert w. induction envs as [|e envs IH]; intros w; [reflexivity|].
  cbn [loop]. destruct (running_ w) eqn:Hrun; [|exact Hrun].
  pose proof (cycle_running e w) as Hr.
  destruct (cycle e w) as [w1 fx1]. specialize (IH w1).
  destruct (loop envs w1) as [w2 fx2]. cbn [fst] in *. congruence.
Qed.

Lemma enqueue_closing (f : ThreadSafeFunction) (evs : list AlertEvent) :
  closing f = true -> enqueue f evs = f.
Proof.
  intros Hc. induction evs as [|ev evs IH]; [reflexivity|].
  cbn. unfold BlockingCall. rewrite Hc. exact IH.
Qed.

Lemma enqueue_open (f : ThreadSafeFunction) (evs : list AlertEvent) :
  closing f = false ->
  enqueue f evs = mkTsfn (js_callback f) (queue f ++ evs) false.
Proof.
  revert f. induction evs as [|ev evs IH]; intros f Hc.
  - cbn. rewrite app_nil_r. destruct f; cbn in *. now subst.
  - cbn. unfold BlockingCall at 2. rewrite Hc. cbn [fst].
    change (fold_left _ evs ?g) with (enqueue g evs).
    rewrite IH by reflexivity. cbn. now rewrite <- app_assoc.
Qed.

(** X4: a run of the loop leaves the settings and the running flag as they
    were, and adds to the queue of the thread-safe function exactly the
    alerts it dispatched, oldest first; on a function that is closing the
    queue stays as it was. *)
Theorem loop_queues_its_alerts (envs : list cycle_env) (w : Watchdog) :
  running_ (fst (loop envs w)) = running_ w /\
  opts_ (fst (loop envs w)) =
    with_tsfn (opts_ w)
      (if closing (tsfn (opts_ w)) then tsfn (opts_ w)
       else mkTsfn (js_callback (tsfn (opts_ w)))
              (queue (tsfn (opts_ w)) ++ alerts (snd (loop envs w))) false).
Proof.
  split; [apply loop_running|]. rewrite loop_opts.
  destruct (closing (tsfn (opts_ w))) eqn:Hc.
  - now rewrite enqueue_closing.
  - now rewrite enqueue_open.
Qed.

Lemma cycle_threshold (e : cycle_env) (w : Watchdog) :
  threshold (opts_ (fst (cycle e w))) = threshold (opts_ w).
Proof. rewrite cycle_opts. reflexivity. Qed.

(** X5: every alert a run of the loop dispatches carries a slope that is
    greater than or equal to the threshold, and names the file
    [heap-<time>.heapsnapshot] of one of the run's iterations, a file that
    iteration could open. *)
Theorem loop_alerts_are_backed (envs : list cycle_env) (w : Watchdog)
    (ev : AlertEvent) :
  Dispatch ev ∈ snd (loop envs w) ->
  exists e, e ∈ envs /\
    alert_file ev = snapshot_name (time_now e) /\
    opens (files e) (alert_file ev) = true /\
    Double.geb (alert_slope ev) (threshold (opts_ w)) = true.
Proof.
  revert w. induction envs as [|e envs IH]; intros w.
  - cbn. intros H. now apply elem_of_nil in H.
  - cbn [loop]. destruct (running_ w); [|cbn; intros H; now apply elem_of_nil in H].
    pose proof (cycle_effects e w) as Hfx. pose proof (cycle_threshold e w) as Hth.
    destruct (cycle e w) as [w1 fx1]. cbn [fst snd] in Hfx, Hth.
    specialize (IH w1). destruct (loop envs w1) as [w2 fx2]. cbn [fst snd] in *.
    intros Hin. apply elem_of_app in Hin as [Hin|Hin].
    + exists e. split; [apply elem_of_cons; now left|].
      rewrite Hfx in Hin.
      destruct (Double.geb
                  (slope (push_sample (window (opts_ w)) (sample_of e) (buf_ w)))
                  (threshold (opts_ w))) eqn:Hge;
        [|now apply elem_of_nil in Hin].
      destruct (opens (files e) (snapshot_name (time_now e))) eqn:Hopen.
      * apply elem_of_cons in Hin as [Hin|Hin]; [discriminate|].
        apply list_elem_of_singleton in Hin. injection Hin as ->.
        cbn [alert_file alert_slope]. repeat split; assumption.
      * apply list_elem_of_singleton in Hin. discriminate.
    + destruct (IH Hin) as (e' & He' & Hrest). exists e'.
      split; [apply elem_of_cons; now right|]. now rewrite <- Hth.
Qed.

Lemma loop_alerts_are_backed_witness :
  exists e, e ∈ three_cycles full_disk /\
    alert_file demo_alert = snapshot_name (time_now e) /\
    opens (files e) (alert_file demo_alert) = true /\
    Double.geb (alert_slope demo_alert) 100 = true.
Proof.
  apply (loop_alerts_are_backed (three_cycles full_disk) (fresh_watchdog 30 100)
           demo_alert).
  vm_compute. apply elem_of_cons. right. apply elem_of_cons. now left.
Defined.

(** ** Windows too short for a slope *)

Lemma push_sample_length_le (win : N) (p : Pt) (buf : deque Pt) :
  (length (push_sample win p buf) <= S (length buf))%nat.
Proof.
  unfold push_sample. destruct (_ <? _)%N.
  - destruct buf; cbn; [lia|]. rewrite length_app. cbn. lia.
  - rewrite length_app. cbn. lia.
Qed.

Lemma cycle_short_window (e : cycle_env) (w : Watchdog) :
  (length (push_sample (window (opts_ w)) (sample_of e) (buf_ w)) < 3)%nat ->
  capture_attempted (snd (cycle e w)) = PrimFloat.leb (threshold (opts_ w)) 0.
Proof.
  intros Hlen. rewrite cycle_effects, (slope_short _ Hlen). unfold Double.geb.
  destruct (PrimFloat.leb _ _); [|reflexivity].
  destruct (opens _ _); reflexivity.
Qed.

(** X6: while the window holds fewer than three samples, that is in the
    first two cycles of a watchdog, the slope is 0 and a cycle attempts a
    capture exactly when the threshold is less than or equal to zero: a
    positive threshold keeps the watchdog quiet, a zero or negative one
    makes it capture from its first sample on. *)
Theorem cycle_before_three_samples (e : cycle_env) (w : Watchdog) :
  (length (buf_ w) < 2)%nat ->
  capture_attempted (snd (cycle e w)) = PrimFloat.leb (threshold (opts_ w)) 0.
Proof.
  intros Hlen. apply cycle_short_window.
  pose proof (push_sample_length_le (window (opts_ w)) (sample_of e) (buf_ w)).
  lia.
Qed.

Lemma cycle_before_three_samples_witness :
  capture_attempted
    (snd (cycle (third_sample full_disk) (fresh_watchdog 30 (-1)))) = true.
Proof.
  rewrite (cycle_before_three_samples (third_sample full_disk)
             (fresh_watchdog 30 (-1))).
  - reflexivity.
  - cbn. lia.
Defined.

Lemma loop_quiet (Q : deque Pt -> Prop) (envs : list cycle_env) (w : Watchdog) :
  Q (buf_ w) ->
  (forall b p, Q b ->
     Q (push_sample (window (opts_ w)) p b) /\
     Double.geb (slope (push_sample (window (opts_ w)) p b))
       (threshold (opts_ w)) = false) ->
  snd (loop envs w) = [] /\ opts_ (fst (loop envs w)) = opts_ w.
Proof.
  revert w. induction envs as [|e envs IH]; intros w HQ Hstep; [split; reflexivity|].
  cbn [loop]. destruct (running_ w); [|split; reflexivity].
  destruct (Hstep (buf_ w) (sample_of e) HQ) as [HQ' Hge].
  assert (Hcycle : cycle e w =
    ({| buf_ := push_sample (window (opts_ w)) (sample_of e) (buf_ w);
        running_ := running_ w; opts_ := opts_ w |}, [])).
  { unfold cycle. now rewrite Hge. }
  rewrite Hcycle.
  specialize (IH {| buf_ := push_sample (window (opts_ w)) (sample_of e) (buf_ w);
                    running_ := running_ w; opts_ := opts_ w |} HQ' Hstep).
  destruct (loop envs _) as [w2 fx2]. cbn [fst snd opts_] in *.
  destruct IH as [-> ->]. split; reflexivity.
Qed.

(** X7: a watchdog whose window is 1 or 2 never has three samples to take
    a slope from: with a threshold that is not less than or equal to zero
    it never attempts a capture and never dispatches an alert, however
    long it runs and whatever the heap does. *)
Theorem loop_window_below_three_is_quiet (envs : list cycle_env) (w : Watchdog) :
  (window (opts_ w) < 3)%N ->
  (length (buf_ w) <= N.to_nat (window (opts_ w)))%nat ->
  PrimFloat.leb (threshold (opts_ w)) 0 = false ->
  snd (loop envs w) = [] /\ opts_ (fst (loop envs w)) = opts_ w.
Proof.
  intros Hwin Hlen Hth.
  apply (loop_quiet (fun b => (length b <= N.to_nat (window (opts_ w)))%nat));
    [exact Hlen|].
  intros b p Hb.
  pose proof (push_sample_bounded (window (opts_ w)) p b Hb) as Hb'.
  split; [exact Hb'|].
  rewrite slope_short by lia. exact Hth.
Qed.

Lemma loop_window_below_three_is_quiet_witness :
  snd (loop (three_cycles full_disk) (fresh_watchdog 2 1)) = [].
Proof.
  apply (loop_window_below_three_is_quiet (three_cycles full_disk)
           (fresh_watchdog 2 1)).
  - reflexivity.
  - cbn. lia.
  - reflexivity.
Defined.

Lemma geb_nan (a : float) : Double.geb a nan = false.
Proof.
  unfold Double.geb. rewrite FloatAxioms.leb_spec.
  change (Prim2SF nan) with S754_nan. reflexivity.
Qed.

(** X8: [start] without a threshold creates a watchdog whose threshold is
    NaN ([ToNumber] of [undefined], which the test [threshold ? ... : ...]
    takes for a set value), and such a watchdog never attempts a capture
    and never dispatches an alert. *)
Theorem Start_without_threshold_is_quiet
    (opts : gmap string js_value) (st st' : native) (h : js_value) :
  Get opts "threshold" = JsUndefined ->
  Start [JsObject opts] st = Some (st', h) ->
  exists w, live st' !! next st = Some w /\
    threshold (opts_ w) = nan /\
    forall envs, snd (loop envs w) = [] /\ opts_ (fst (loop envs w)) = opts_ w.
Proof.
  intros Hunset HS.
  destruct (Start_inv opts st st' h HS) as (i & wn & th & _ & _ & Hth & _ & _ & Hlive).
  rewrite Hunset in Hth. injection Hth as <-.
  eexists. split; [exact Hlive|]. split; [reflexivity|].
  intros envs. apply (loop_quiet (fun _ => True)); [exact I|].
  intros b p _. split; [exact I|]. apply geb_nan.
Qed.

Lemma Start_without_threshold_is_quiet_witness :
  match Start [JsObject callback_only] (mkNative ∅ 1%positive) with
  | Some (st', _) =>
      exists w, live st' !! 1%positive = Some w /\
                snd (loop (three_cycles full_disk) w) = []
  | None => False
  end.
Proof.
  destruct (Start [JsObject callback_only] (mkNative ∅ 1%positive))
    as [[st' h]|] eqn:HS; [|vm_compute in HS; discriminate].
  destruct (Start_without_threshold_is_quiet callback_only _ _ _ eq_refl HS)
    as (w & Hlive & _ & Hquiet).
  exists w. split; [exact Hlive|]. apply Hquiet.
Defined.

(** ** [Start] and [Stop] *)





Lemma Get_insert_ne (opts : gmap string js_value) (k key : string) (v : js_value) :
  k <> key -> Get (<[k := v]> opts) key = Get opts key.
Proof. intros Hne. unfold Get. now rewrite lookup_insert_ne. Qed.

(** X10: [Start] reads its first argument only, and of that object only
    the properties [interval], [window], [threshold] and [cb]: further
    arguments and any other property (an [onAlert], say) change nothing. *)
Theorem Start_reads_four_properties
    (opts : gmap string js_value) (k : string) (v : js_value)
    (rest : list js_value) (st : native) :
  k <> "interval" -> k <> "window" -> k <> "threshold" -> k <> "cb" ->
  Start (JsObject (<[k := v]> opts) :: rest) st = Start [JsObject opts] st.
Proof.
  intros Hi Hw Ht Hc. unfold Start. cbn [mbind option_bind].
  now rewrite !Get_insert_ne.
Qed.

Lemma Start_reads_four_properties_witness :
  Start [JsObject (<["onAlert" := JsFunction 7]> callback_only); JsNumber 1]
    (mkNative ∅ 1%positive) =
  Start [JsObject callback_only] (mkNative ∅ 1%positive).
Proof.
  apply (Start_reads_four_properties callback_only "onAlert" (JsFunction 7)
           [JsNumber 1%float]); discriminate.
Defined.



(** ** The shutdown protocol of the two threads *)

Lemma shutdown_invariant_step (s s' : system) :
  shutdown_invariant s -> step s s' -> shutdown_invariant s'.
Proof.
  intros [Hflag Hjoin] Hstep.
  destruct Hstep
    as [s e Hw Hr|s Hw Hr|s e Hw|s Hj|s Hj Hw|s Hj|s Hj|s ev q Hj Hc Hq|s Hj Hc];
    unfold shutdown_invariant;
    cbn [js wd worker running_ set_running set_tsfn].
  - split; [exact Hflag|]. intros Hp. apply Hjoin in Hp. congruence.
  - split; [exact Hflag|]. reflexivity.
  - rewrite cycle_running. split; [exact Hflag|].
    intros Hp. apply Hjoin in Hp. congruence.
  - split; [reflexivity|]. discriminate.
  - split; [intros _; apply Hflag; congruence|]. intros _. exact Hw.
  - split; [intros _; apply Hflag; congruence|].
    intros _. apply Hjoin. now rewrite Hj.
  - split; [intros _; apply Hflag; congruence|].
    intros _. apply Hjoin. now rewrite Hj.
  - exact (conj Hflag Hjoin).
  - exact (conj Hflag Hjoin).
Qed.

Lemma reachable_shutdown_invariant (o : Options) (s : system) :
  reachable o s -> shutdown_invariant s.
Proof.
  unfold reachable. intros Hrtc.
  apply (rtc_ind_r (R := step) shutdown_invariant (started o)); [| |exact Hrtc].
  - split; [intros H; now contradict H | discriminate].
  - intros s1 s2 _ Hstep IH. exact (shutdown_invariant_step s1 s2 IH Hstep).
Qed.

(** X14: in every reachable state in which the destructor is past
    [thread_.join()], in particular once [Stop] has returned, the watchdog
    thread has returned from [loop]: [stop] leaves no thread behind. *)
Theorem stop_joins_the_thread (o : Options) (s : system) :
  reachable o s ->
  past_join (js s) = true ->
  worker s = ThreadExited /\ running_ (wd s) = false.
Proof.
  intros Hreach Hp. destruct (reachable_shutdown_invariant o s Hreach) as [Hflag Hjoin].
  split; [now apply Hjoin|]. apply Hflag. intros Hj. now rewrite Hj in Hp.
Qed.

Lemma no_more_iterations (s s' : system) :
  rtc step s s' ->
  js s <> JsRunning -> running_ (wd s) = false -> in_cycle (worker s) = false ->
  js s' <> JsRunning /\ running_ (wd s') = false /\
  in_cycle (worker s') = false /\ buf_ (wd s') = buf_ (wd s).
Proof.
  intros Hrtc Hj Hr Hw.
  apply (rtc_ind_r (R := step)
           (fun s' => js s' <> JsRunning /\ running_ (wd s') = false /\
                      in_cycle (worker s') = false /\ buf_ (wd s') = buf_ (wd s))
           s); [| |exact Hrtc].
  - repeat split; assumption.
  - intros s1 s2 _ Hstep (Hj1 & Hr1 & Hw1 & Hb1).
    destruct Hstep
      as [s1 e Hw' Hr'|s1 Hw' Hr'|s1 e Hw'|s1 Hj'|s1 Hj' Hw'|s1 Hj'|s1 Hj'
         |s1 ev q Hj' Hc Hq|s1 Hj' Hc];
      cbn [js wd worker running_ buf_ set_running set_tsfn in_cycle];
      try (repeat split; (assumption || discriminate)).
    all: try congruence.
    all: try (rewrite Hw' in Hw1; discriminate).
Qed.

(** X15: once [stop] has stored [false] in the running flag and the
    iteration that was under way, if any, is over, the thread starts no
    further iteration: in every later state the window is what it was and
    the thread is not inside an iteration. The shutdown costs at most the
    rest of one iteration. *)
Theorem no_iteration_after_stop (o : Options) (s s' : system) :
  reachable o s ->
  js s <> JsRunning ->
  in_cycle (worker s) = false ->
  rtc step s s' ->
  buf_ (wd s') = buf_ (wd s) /\ in_cycle (worker s') = false.
Proof.
  intros Hreach Hj Hw Hrtc.
  destruct (reachable_shutdown_invariant o s Hreach) as [Hflag _].
  destruct (no_more_iterations s s' Hrtc Hj (Hflag Hj) Hw) as (_ & _ & Hw' & Hb).
  split; assumption.
Qed.






(** A run in which [stop] is called during the third iteration, up to the
    return of [thread_.join()]. *)
Lemma demo_run_joined :
  exists s, reachable demo_options s /\ js s = DtorJoined /\
            buf_ (wd s) = three_points.
Proof.
  eexists. split; [|split].
  - unfold reachable.
    eapply rtc_l.
    { apply (worker_enters _ (mkEnv 0 (mkIsolate 100 ["{"; "}"]) 1700000000 full_disk));
        reflexivity. }
    eapply rtc_l; [eapply worker_cycles; reflexivity|].
    eapply rtc_l.
    { apply (worker_enters _ (mkEnv 1000000 (mkIsolate 200 ["{"; "}"]) 1700000000
                                full_disk)); reflexivity. }
    eapply rtc_l; [eapply worker_cycles; reflexivity|].
    eapply rtc_l.
    { apply (worker_enters _ (third_sample full_disk)); reflexivity. }
    eapply rtc_l; [apply stop_stores; reflexivity|].
    eapply rtc_l; [eapply worker_cycles; reflexivity|].
    eapply rtc_l; [apply worker_leaves; reflexivity|].
    eapply rtc_l; [apply stop_joins; reflexivity|].
    apply rtc_refl.
  - reflexivity.
  - vm_compute. reflexivity.
Qed.

Lemma stop_joins_the_thread_witness :
  exists s, reachable demo_options s /\ js s = DtorJoined /\
            worker s = ThreadExited /\ running_ (wd s) = false.
Proof.
  destruct demo_run_joined as (s & Hreach & Hjs & _).
  exists s. split; [exact Hreach|]. split; [exact Hjs|].
  apply (stop_joins_the_thread demo_options s Hreach). now rewrite Hjs.
Defined.

Lemma no_iteration_after_stop_witness :
  exists s s', reachable demo_options s /\ rtc step s s' /\
               js s' = JsStopped /\ buf_ (wd s') = three_points.
Proof.
  destruct demo_run_joined as (s & Hreach & Hjs & Hbuf).
  assert (Hexit : worker s = ThreadExited).
  { destruct (reachable_shutdown_invariant _ _ Hreach) as [_ Hjoin].
    apply Hjoin. now rewrite Hjs. }
  assert (Hrun : exists s', rtc step s s' /\ js s' = JsStopped).
  { eexists. split.
    - eapply rtc_l; [apply stop_aborts; exact Hjs|].
      eapply rtc_l; [apply stop_returns; reflexivity|].
      apply rtc_refl.
    - reflexivity. }
  destruct Hrun as (s' & Hrtc & Hjs').
  exists s, s'. split; [exact Hreach|]. split; [exact Hrtc|]. split; [exact Hjs'|].
  rewrite <- Hbuf.
  apply (no_iteration_after_stop demo_options s s' Hreach); [| |exact Hrtc].
  - rewrite Hjs. discriminate.
  - now rewrite Hexit.
Defined.

(** ** The contents of the window *)

Lemma StronglySorted_skipn (n : nat) (l : list Z) :
  StronglySorted Z.le l -> StronglySorted Z.le (skipn n l).
Proof.
  revert l. induction n as [|n IH]; intros l Hs; [exact Hs|].
  destruct l as [|a l]; [exact Hs|]. cbn [skipn]. apply IH.
  now apply StronglySorted_inv in Hs.
Qed.

Lemma last_skipn_lt (n : nat) (l : list Pt) :
  (n < length l)%nat -> last (skipn n l) = last l.
Proof.
  revert l. induction n as [|n IH]; intros l Hlt; [reflexivity|].
  destruct l as [|a l]; [cbn in Hlt; lia|]. cbn [skipn].
  rewrite IH by (cbn in Hlt; lia).
  destruct l; [cbn in Hlt; lia | reflexivity].
Qed.

(** X18: a watchdog that starts with an empty window holds, after any
    number of cycles, exactly the most recent [window] samples it read (all
    of them while there are fewer), in the order they were read; when
    [window] is at least 1 the newest sample is the last one read. *)
Theorem window_holds_most_recent (envs : list cycle_env) (w : Watchdog) :
  running_ w = true -> buf_ w = [] ->
  let pushed := map sample_of envs in
  let buf := buf_ (fst (loop envs w)) in
  buf = skipn (length pushed - N.to_nat (window (opts_ w))) pushed /\
  length buf = Nat.min (length envs) (N.to_nat (window (opts_ w))) /\
  ((0 < window (opts_ w))%N -> last buf = last pushed).
Proof.
  intros Hrun Hempty pushed buf.
  assert (Hbuf : buf = skipn (length pushed - N.to_nat (window (opts_ w))) pushed).
  { unfold buf. rewrite (loop_buf envs w Hrun), Hempty.
    rewrite pushes_keep_newest by (cbn [length]; lia). reflexivity. }
  assert (Hlen : length pushed = length envs) by (unfold pushed; apply length_map).
  split; [exact Hbuf|]. rewrite Hbuf. split.
  - rewrite length_skipn. lia.
  - intros Hpos. destruct pushed as [|a l] eqn:Hp.
    + now rewrite skipn_nil.
    + apply last_skipn_lt. cbn [length]. lia.
Qed.

Lemma window_holds_most_recent_witness :
  buf_ (fst (loop (three_cycles closed_disk) (fresh_watchdog 1 1024))) =
  [mkPt 2000000 300].
Proof.
  apply (window_holds_most_recent (three_cycles closed_disk) (fresh_watchdog 1 1024));
    reflexivity.
Defined.

(** X19: when the steady clock does not go backwards between the
    iterations of a run, the timestamps in the window are in
    non-decreasing order, oldest sample first. *)
Theorem window_timestamps_sorted (envs : list cycle_env) (w : Watchdog) :
  running_ w = true -> buf_ w = [] ->
  StronglySorted Z.le (map now envs) ->
  StronglySorted Z.le (map t (buf_ (fst (loop envs w)))).
Proof.
  intros Hrun Hempty Hsorted.
  rewrite (loop_buf envs w Hrun), Hempty.
  rewrite pushes_keep_newest by (cbn [length]; lia). cbn [app].
  rewrite <- skipn_map. apply StronglySorted_skipn.
  rewrite map_map. exact Hsorted.
Qed.

Lemma window_timestamps_sorted_witness :
  StronglySorted Z.le
    (map t (buf_ (fst (loop (three_cycles closed_disk) (fresh_watchdog 2 1024))))).
Proof.
  apply (window_timestamps_sorted (three_cycles closed_disk) (fresh_watchdog 2 1024)).
  - reflexivity.
  - reflexivity.
  - repeat constructor; cbn; lia.
Defined.

(** ** Snapshot file names *)

Lemma string_length_app (a s : string) :
  String.length (a +:+ s) = (String.length a + String.length s)%nat.
Proof.
  induction a as [|c a IH]; [reflexivity|].
  change (S (String.length (a +:+ s)) = S (String.length a + String.length s)).
  now f_equal.
Qed.

Lemma string_app_inj_r (a b s : string) : a +:+ s = b +:+ s -> a = b.
Proof.
  revert b. induction a as [|c a IH]; intros [|c' b] H.
  - reflexivity.
  - exfalso. apply (f_equal String.length) in H.
    rewrite !string_length_app in H. cbn in H. lia.
  - exfalso. apply (f_equal String.length) in H.
    rewrite !string_length_app in H. cbn in H. lia.
  - cbn in H. injection H as -> H. f_equal. now apply IH.
Qed.

Lemma string_app_inj_l (s a b : string) : s +:+ a = s +:+ b -> a = b.
Proof.
  induction s as [|c s IH]; intros H; [exact H|].
  cbn in H. injection H as H. now apply IH.
Qed.

Lemma to_int_not_nil (z : Z) :
  Z.to_int z <> Decimal.Pos Decimal.Nil /\ Z.to_int z <> Decimal.Neg Decimal.Nil.
Proof.
  destruct z as [|q|q]; cbn; split; try discriminate; intros H; injection H as H;
    now apply DecimalPos.Unsigned.to_uint_nonnil in H.
Qed.

Lemma decimal_inj (z1 z2 : Z) :
  NilZero.string_of_int (Z.to_int z1) = NilZero.string_of_int (Z.to_int z2) ->
  z1 = z2.
Proof.
  intros H. apply (f_equal NilZero.int_of_string) in H.
  destruct (to_int_not_nil z1) as [H1 H1']. destruct (to_int_not_nil z2) as [H2 H2'].
  rewrite !NilZero.isi in H by assumption. injection H as H.
  apply (f_equal Z.of_int) in H. now rewrite !DecimalZ.of_to in H.
Qed.

(** X20: the name of the snapshot file determines the time it was taken
    at: two captures get the same file name only when [std::time] returned
    the same second for both, and then the second capture is written to
    the file of the first. *)
Theorem snapshot_name_inj (time1 time2 : Z) :
  snapshot_name time1 = snapshot_name time2 <-> time1 = time2.
Proof.
  split; [|now intros ->].
  unfold snapshot_name. intros H. apply string_app_inj_l in H.
  apply string_app_inj_r in H. now apply decimal_inj.
Qed.

Lemma snapshot_name_inj_witness : snapshot_name 1700000000 <> snapshot_name 1700000001.
Proof.
  intros H. apply (proj1 (snapshot_name_inj 1700000000 1700000001)) in H.
  discriminate.
Defined.

(** ** The JavaScript thread leaves the window alone *)


